(** * Board format converter ([convert.py]): model and verified properties

    The development embeds the converter of [src/convert.py] as executable
    Rocq functions and proves properties of the parser, the serializer, the
    record reader and the file-level orchestration.

    Modelling conventions.
    - A Python [str] is a [list ascii]; a character is a code point below
      256 (Latin-1), so the only decimal digits are ['0'..'9'].
    - A Python [int] is a [Z] (unbounded; the interpreter's optional limit on
      the number of digits of a literal is not modelled).
    - A call that may raise returns a [result]: [Ok v] or [Raise e].
    - The file system maps a path to the text of the file there, if any. *)

From Stdlib Require Import String Ascii Bool ZArith Lia List.
From Stdlib Require Import Permutation Sorted.
From Stdlib Require Decimal DecimalPos DecimalZ.
Import ListNotations.
Open Scope Z_scope.

(** ** Python values and built-ins *)

Module Py.

Definition str := list ascii.

Definition lit (s : string) : str := list_ascii_of_string s.

Inductive exn : Type :=
| ValueError
| IndexError
| TypeError
| FileNotFoundError.

Inductive result (A : Type) : Type :=
| Ok (a : A)
| Raise (e : exn).
Arguments Ok {A} a.
Arguments Raise {A} e.

Definition bind {A B} (m : result A) (f : A -> result B) : result B :=
  match m with
  | Ok a => f a
  | Raise e => Raise e
  end.

Definition is_ok {A} (m : result A) : bool :=
  match m with Ok _ => true | Raise _ => false end.

(** [[f(x) for x in l]]: elements are evaluated left to right and the first
    exception stops the comprehension. *)
Fixpoint mapM {A B} (f : A -> result B) (l : list A) : result (list B) :=
  match l with
  | [] => Ok []
  | x :: xs =>
      bind (f x) (fun y => bind (mapM f xs) (fun ys => Ok (y :: ys)))
  end.

Definition str_eqb (a b : str) : bool :=
  if list_eq_dec ascii_dec a b then true else false.

(** [str.isspace] on the code points below 256. *)
Definition isspace (c : ascii) : bool :=
  let n := nat_of_ascii c in
  ((9 <=? n) && (n <=? 13) || (28 <=? n) && (n <=? 32)
   || (n =? 133) || (n =? 160))%nat.

Fixpoint lstrip (s : str) : str :=
  match s with
  | [] => []
  | c :: s' => if isspace c then lstrip s' else s
  end.

Definition rstrip (s : str) : str := rev (lstrip (rev s)).

(** [s.strip()] *)
Definition strip (s : str) : str := rstrip (lstrip s).

(** [s.split(sep)] for a one-character separator, the only kind the
    converter passes. *)
Fixpoint split (sep : ascii) (s : str) : list str :=
  match s with
  | [] => [[]]
  | c :: s' =>
      if Ascii.eqb c sep then [] :: split sep s'
      else match split sep s' with
           | [] => [[c]]
           | w :: ws => (c :: w) :: ws
           end
  end.

(** [sep.join(l)] *)
Fixpoint join (sep : str) (l : list str) : str :=
  match l with
  | [] => []
  | x :: xs =>
      match xs with
      | [] => x
      | _ :: _ => x ++ sep ++ join sep xs
      end
  end.

(** [l[i]] *)
Definition index {A} (l : list A) (i : nat) : result A :=
  match nth_error l i with
  | Some x => Ok x
  | None => Raise IndexError
  end.

(** *** [int(s)]

    Leading and trailing white space is skipped, then an optional sign, then
    decimal digits in which single underscores may separate digits. The
    white space [int] skips is narrower than [str.isspace]: the separators
    28..31 are not skipped. *)

Definition int_space (c : ascii) : bool :=
  let n := nat_of_ascii c in
  ((9 <=? n) && (n <=? 13) || (n =? 32) || (n =? 133) || (n =? 160))%nat.

Definition digit (c : ascii) : option Z :=
  let n := nat_of_ascii c in
  if ((48 <=? n) && (n <=? 57))%nat then Some (Z.of_nat n - 48) else None.

Definition is_underscore (c : ascii) : bool := Ascii.eqb c "_"%char.

Fixpoint skip_space (s : str) : str :=
  match s with
  | [] => []
  | c :: s' => if int_space c then skip_space s' else s
  end.

(** The digit scan: [prev] tells whether the previous character was an
    underscore; the scan stops at the first character that is neither a
    digit nor an underscore. *)
Fixpoint scan_digits (prev : bool) (acc : Z) (s : str) : option (Z * str) :=
  match s with
  | [] => if prev then None else Some (acc, [])
  | c :: s' =>
      if is_underscore c then
        if prev then None else scan_digits true acc s'
      else
        match digit c with
        | Some d => scan_digits false (10 * acc + d) s'
        | None => if prev then None else Some (acc, s)
        end
  end.

Definition int (s : str) : result Z :=
  let s1 := skip_space s in
  let '(neg, s2) :=
    match s1 with
    | c :: r =>
        if Ascii.eqb c "+"%char then (false, r)
        else if Ascii.eqb c "-"%char then (true, r)
        else (false, s1)
    | [] => (false, s1)
    end in
  match s2 with
  | [] => Raise ValueError
  | c :: _ =>
      match digit c with
      | None => Raise ValueError
      | Some _ =>
          match scan_digits false 0 s2 with
          | None => Raise ValueError
          | Some (v, rest) =>
              match skip_space rest with
              | [] => Ok (if neg then - v else v)
              | _ :: _ => Raise ValueError
              end
          end
      end
  end.

(** *** [str(z)]: the canonical decimal numeral. *)

Fixpoint uint_chars (d : Decimal.uint) : str :=
  match d with
  | Decimal.Nil => []
  | Decimal.D0 d => "0"%char :: uint_chars d
  | Decimal.D1 d => "1"%char :: uint_chars d
  | Decimal.D2 d => "2"%char :: uint_chars d
  | Decimal.D3 d => "3"%char :: uint_chars d
  | Decimal.D4 d => "4"%char :: uint_chars d
  | Decimal.D5 d => "5"%char :: uint_chars d
  | Decimal.D6 d => "6"%char :: uint_chars d
  | Decimal.D7 d => "7"%char :: uint_chars d
  | Decimal.D8 d => "8"%char :: uint_chars d
  | Decimal.D9 d => "9"%char :: uint_chars d
  end.

Definition str_of_int (z : Z) : str :=
  match Z.to_int z with
  | Decimal.Pos d => uint_chars d
  | Decimal.Neg d => "-"%char :: uint_chars d
  end.

(** *** [list.sort()] on integers

    The sorted list of integers is determined by its elements, so the model
    is an insertion sort. [sort(reverse=True)] reverses the list, sorts it
    and reverses the result, as the interpreter does to keep the sort
    stable. *)

Fixpoint insert (x : Z) (l : list Z) : list Z :=
  match l with
  | [] => [x]
  | y :: l' => if x <=? y then x :: l else y :: insert x l'
  end.

Fixpoint sort (l : list Z) : list Z :=
  match l with
  | [] => []
  | x :: l' => insert x (sort l')
  end.

Definition sort_reverse (l : list Z) : list Z := rev (sort (rev l)).

(** [max(iterable)]: an empty iterable raises [ValueError]. *)
Definition max (l : list Z) : result Z :=
  match l with
  | [] => Raise ValueError
  | x :: xs => Ok (fold_left (fun m y => if m <? y then y else m) xs x)
  end.

(** [sum(iterable)] *)
Definition sum (l : list Z) : Z := fold_left Z.add l 0.

End Py.

Import Py.

Notation "x <- m ;; k" := (bind m (fun x => k))
  (at level 61, m at next level, right associativity).

(** ** The converter *)

Definition DEFAULT_SEPARATOR : str := lit "---".

Inductive DataType : Type :=
| OLD
| NEW.

(** *** class Board *)

Record Board : Type := mkBoard {
  n : Z;
  k : Z;
  chips_asc : list (list Z);
  chips_desc : list (list Z);
  goal : Z
}.

(** [Board.__init__]: both copies of the chips are sorted column by column,
    one ascending and one descending. *)
Definition Board_init (vn vk : Z) (chips : list (list Z)) (vgoal : Z) : Board :=
  {| n := vn;
     k := vk;
     chips_asc := map sort chips;
     chips_desc := map sort_reverse chips;
     goal := vgoal |}.

(** [board.goal = g] *)
Definition set_goal (b : Board) (g : Z) : Board :=
  {| n := n b;
     k := k b;
     chips_asc := chips_asc b;
     chips_desc := chips_desc b;
     goal := g |}.

(** [max(column[0] for column in self.chips_desc)]: the generator is consumed
    from the left, so the first empty column raises [IndexError] and an empty
    list of columns makes [max] raise [ValueError]. *)
Definition calc_max_row (b : Board) : result Z :=
  firsts <- mapM (fun column => index column 0) (chips_desc b) ;;
  max firsts.

Definition calc_num_chips (b : Board) : Z :=
  sum (map (fun column =>
              Z.of_nat (length (filter (fun r => r >=? 0) column)))
           (chips_asc b)).

(** Unpacking [a1, ..., an = map(f, l)]: the items are computed on demand;
    after the [n] targets are filled one more item is requested to detect a
    list that is too long. *)
Fixpoint take_map {A B} (f : A -> result B) (cnt : nat) (l : list A)
  : result (list B * list A) :=
  match cnt with
  | O => Ok ([], l)
  | S c =>
      match l with
      | [] => Raise ValueError
      | x :: xs =>
          y <- f x ;;
          r <- take_map f c xs ;;
          Ok (y :: fst r, snd r)
      end
  end.

Definition unpack {A B} (f : A -> result B) (cnt : nat) (l : list A)
  : result (list B) :=
  r <- take_map f cnt l ;;
  match snd r with
  | [] => Ok (fst r)
  | x :: _ => _ <- f x ;; Raise ValueError
  end.

Definition old_token (r : str) : result Z :=
  p <- index (split ":"%char r) 0 ;; int p.

Definition new_field (x : str) : result Z :=
  p <- index (split "="%char x) 1 ;; int p.

(** [Board.fromString] *)
Definition fromString (datatype : DataType) (lines : list str) : result Board :=
  match datatype with
  | OLD =>
      header <- index lines 0 ;;
      fields <- unpack int 5 (split ","%char header) ;;
      match fields with
      | [vn; vk; vgoal; _; _] =>
          chips <- mapM (fun column => mapM old_token (split " "%char column))
                        (tl lines) ;;
          Ok (Board_init vn vk chips vgoal)
      | _ => Raise ValueError
      end
  | NEW =>
      header <- index lines 0 ;;
      fields <- unpack new_field 3 (split ","%char header) ;;
      match fields with
      | [vn; vk; _] =>
          chips <- mapM (fun column => mapM int (split " "%char column))
                        (tl lines) ;;
          Ok (Board_init vn vk chips 0)
      | _ => Raise ValueError
      end
  end.

(** The lines of the serialized board, before they are joined. *)
Definition old_body (b : Board) : list str :=
  map (fun column =>
         join (lit " ") (map (fun r => str_of_int r ++ lit ":0") column))
      (chips_asc b).

Definition new_body (b : Board) : list str :=
  map (fun column => join (lit " ") (map str_of_int column)) (chips_desc b).

Definition old_head (b : Board) (max_row : Z) : str :=
  str_of_int (n b) ++ lit "," ++ str_of_int (k b) ++ lit ","
  ++ str_of_int (goal b) ++ lit "," ++ str_of_int max_row ++ lit ","
  ++ str_of_int (calc_num_chips b).

Definition new_head (b : Board) : str :=
  lit "n=" ++ str_of_int (n b) ++ lit ",k=" ++ str_of_int (k b)
  ++ lit ",n_chips=" ++ str_of_int (calc_num_chips b).

(** [Board.toString] *)
Definition toString (b : Board) (datatype : DataType) : result str :=
  match datatype with
  | OLD =>
      max_row <- calc_max_row b ;;
      Ok (old_head b max_row ++ lit (String "010" EmptyString)
          ++ join (lit (String "010" EmptyString)) (old_body b))
  | NEW =>
      Ok (new_head b ++ lit (String "010" EmptyString)
          ++ join (lit (String "010" EmptyString)) (new_body b))
  end.

(** *** Files *)

Definition nl : ascii := "010"%char.
Definition cr : ascii := "013"%char.

(** A file system: the text stored under each path. *)
Definition FS : Type := str -> option str.

Definition fs_write (fs : FS) (path : str) (text : str) : FS :=
  fun p => if str_eqb p path then Some text else fs p.

(** Reading in text mode translates the line endings CR LF and CR to LF. *)
Fixpoint translate_newlines (s : str) : str :=
  match s with
  | [] => []
  | c :: s' =>
      if Ascii.eqb c cr then
        nl :: match s' with
              | [] => []
              | c2 :: s'' =>
                  if Ascii.eqb c2 nl then translate_newlines s''
                  else translate_newlines s'
              end
      else c :: translate_newlines s'
  end.

(** [for line in file]: each line keeps its terminating LF; the last line
    may lack one. *)
Fixpoint file_lines (s : str) : list str :=
  match s with
  | [] => []
  | c :: s' =>
      if Ascii.eqb c nl then [c] :: file_lines s'
      else match file_lines s' with
           | [] => [[c]]
           | l :: ls => (c :: l) :: ls
           end
  end.

(** The parsed command line. *)
Record Args : Type := mkArgs {
  arg_in : str;
  arg_out : str;
  arg_direction : str;
  arg_goal : option str;
  arg_isep : option str;
  arg_osep : option str
}.

Definition in_datatype (args : Args) : DataType :=
  if str_eqb (arg_direction args) (lit "old-to-new") then OLD else NEW.

Definition out_datatype (args : Args) : DataType :=
  if str_eqb (arg_direction args) (lit "old-to-new") then NEW else OLD.

Definition in_separator (args : Args) : str :=
  match arg_isep args with
  | None => DEFAULT_SEPARATOR
  | Some s => s
  end.

Definition out_separator (args : Args) : str :=
  match arg_osep args with
  | None => DEFAULT_SEPARATOR
  | Some s => s
  end.

(** The loop of [file_to_boards] over the lines of the input file, with its
    two variables [buffer] and [boards]. *)
Fixpoint read_loop (datatype : DataType) (sep : str) (lines : list str)
    (buffer : list str) (boards : list Board) : result (list Board) :=
  match lines with
  | [] =>
      if (0 <? length buffer)%nat then
        b <- fromString datatype buffer ;; Ok (boards ++ [b])
      else Ok boards
  | line :: rest =>
      let line := strip line in
      if negb (str_eqb line sep) then
        read_loop datatype sep rest (buffer ++ [line]) boards
      else
        b <- fromString datatype buffer ;;
        read_loop datatype sep rest [] (boards ++ [b])
  end.

Definition file_to_boards (args : Args) (fs : FS) : result (list Board) :=
  match fs (arg_in args) with
  | None => Raise FileNotFoundError
  | Some text =>
      read_loop (in_datatype args) (in_separator args)
                (file_lines (translate_newlines text)) [] []
  end.

(** [int(getattr(args, "goal"))] *)
Definition goal_of (args : Args) : result Z :=
  match arg_goal args with
  | None => Raise TypeError
  | Some g => int g
  end.

(** The loop of [boards_to_file]; [written] is the text written so far to
    the open output file. *)
Fixpoint write_loop (args : Args) (boards : list Board) (written : str)
  : result unit * str :=
  match boards with
  | [] => (Ok tt, written)
  | board :: rest =>
      let datatype := out_datatype args in
      match (match datatype with
             | OLD => g <- goal_of args ;; Ok (set_goal board g)
             | NEW => Ok board
             end) with
      | Raise e => (Raise e, written)
      | Ok board' =>
          match toString board' datatype with
          | Raise e => (Raise e, written)
          | Ok text =>
              write_loop args rest
                (written ++ text ++ [nl] ++ out_separator args ++ [nl])
          end
      end
  end.

(** [boards_to_file]: the output file is opened for writing, which empties
    it, and whatever was written stays in it if an exception ends the loop. *)
Definition boards_to_file (boards : list Board) (args : Args) (fs : FS)
  : result unit * FS :=
  let '(r, written) := write_loop args boards [] in
  (r, fs_write fs (arg_out args) written).

(** The script body: all boards are read before anything is written. *)
Definition main (args : Args) (fs : FS) : result unit * FS :=
  match file_to_boards args fs with
  | Raise e => (Raise e, fs)
  | Ok boards => boards_to_file boards args fs
  end.

(** ** Specification vocabulary and auxiliary definitions *)

(** The value of a numeral read from the left with an accumulator, as
    [scan_digits] computes it. *)
Fixpoint uint_val (d : Decimal.uint) (acc : Z) : Z :=
  match d with
  | Decimal.Nil => acc
  | Decimal.D0 d => uint_val d (10 * acc + 0)
  | Decimal.D1 d => uint_val d (10 * acc + 1)
  | Decimal.D2 d => uint_val d (10 * acc + 2)
  | Decimal.D3 d => uint_val d (10 * acc + 3)
  | Decimal.D4 d => uint_val d (10 * acc + 4)
  | Decimal.D5 d => uint_val d (10 * acc + 5)
  | Decimal.D6 d => uint_val d (10 * acc + 6)
  | Decimal.D7 d => uint_val d (10 * acc + 7)
  | Decimal.D8 d => uint_val d (10 * acc + 8)
  | Decimal.D9 d => uint_val d (10 * acc + 9)
  end.

(** [c] is one of ['0'..'9']. *)
Definition is_digit (c : ascii) : bool :=
  match digit c with Some _ => true | None => false end.

(** The characters of a printed integer: digits and the minus sign. *)
Definition numeric_char (c : ascii) : bool :=
  is_digit c || Ascii.eqb c "-"%char.

(** [d] is [c] sorted in ascending order. *)
Definition ascending (c d : list Z) : Prop :=
  Permutation c d /\ StronglySorted Z.le d.

(** [d] is [c] sorted in descending order. *)
Definition descending (c d : list Z) : Prop :=
  Permutation c d /\ StronglySorted Z.ge d.

(** The number of non-negative values in all columns. *)
Definition count_nonneg (chips : list (list Z)) : Z :=
  Z.of_nat (length (filter (fun r => 0 <=? r) (concat chips))).

(** [m] is the largest element of [l]. *)
Definition is_max (l : list Z) (m : Z) : Prop :=
  In m l /\ forall x, In x l -> x <= m.

(** [m] is the smallest element of [l]. *)
Definition is_min (l : list Z) (m : Z) : Prop :=
  In m l /\ forall x, In x l -> m <= x.

(** [s.removesuffix(suffix)] *)
Definition removesuffix (suffix s : str) : str :=
  let cut := (length s - length suffix)%nat in
  if str_eqb (skipn cut s) suffix then firstn cut s else s.

(** A column's line in the old-format body. *)
Definition old_line (column : list Z) : str :=
  join (lit " ") (map (fun r => str_of_int r ++ lit ":0") column).

(** A column's line in the new-format body. *)
Definition new_line (column : list Z) : str :=
  join (lit " ") (map str_of_int column).

(** The columns a record's body lines parse to: the [chips] of
    [fromString]. *)
Definition parsed_chips (datatype : DataType) (lines : list str)
  : result (list (list Z)) :=
  match datatype with
  | OLD => mapM (fun column => mapM old_token (split " "%char column))
                (tl lines)
  | NEW => mapM (fun column => mapM int (split " "%char column)) (tl lines)
  end.

(** [f] raises no exception other than [e0]. *)
Definition only_raises {A B : Type} (f : A -> result B) (e0 : exn) : Prop :=
  forall x e, f x = Raise e -> e = e0.

(** The text of a token before its first colon; the whole token when it has
    no colon. *)
Definition before_colon (t : str) : str := hd [] (split ":"%char t).

(** [s] is text that [int] accepts. *)
Definition is_int (s : str) : Prop := exists z, int s = Ok z.

(** The header splits at commas into exactly five integers. *)
Definition old_header_ok (header : str) : Prop :=
  length (split ","%char header) = 5%nat
  /\ Forall is_int (split ","%char header).

(** Every space-separated token of the line has an integer before its first
    colon. *)
Definition old_column_ok (column : str) : Prop :=
  Forall (fun t => is_int (before_colon t)) (split " "%char column).

(** Boards that agree on [n], [k] and [goal] and, column by column, on the
    multiset of non-negative values. *)
Definition equivalent (b b' : Board) : Prop :=
  n b = n b' /\ k b = k b' /\ goal b = goal b'
  /\ Forall2 (fun c c' =>
                Permutation (filter (fun r => 0 <=? r) c)
                            (filter (fun r => 0 <=? r) c'))
             (chips_asc b) (chips_asc b').

(** The raw records [read_loop] hands to [fromString]: the lines between
    separator lines, and the lines after the last separator if there are
    any. *)
Fixpoint records_from (sep : str) (lines : list str) (buffer : list str)
  : list (list str) :=
  match lines with
  | [] => if (0 <? length buffer)%nat then [buffer] else []
  | line :: rest =>
      let line := strip line in
      if negb (str_eqb line sep) then records_from sep rest (buffer ++ [line])
      else buffer :: records_from sep rest []
  end.

(** The line without its trailing newline, if it has one. *)
Definition trim_newline (line : str) : str :=
  match rev line with
  | c :: r => if Ascii.eqb c nl then rev r else line
  | [] => line
  end.

(** The reader as the specification words it: only the trailing newline of
    a line is trimmed before the line is compared and stored. *)
Fixpoint spec_records_from (sep : str) (lines : list str) (buffer : list str)
  : list (list str) :=
  match lines with
  | [] => if (0 <? length buffer)%nat then [buffer] else []
  | line :: rest =>
      let line := trim_newline line in
      if negb (str_eqb line sep)
      then spec_records_from sep rest (buffer ++ [line])
      else buffer :: spec_records_from sep rest []
  end.

(** The records of the input file named by the arguments. *)
Definition input_records (args : Args) (text : str) : list (list str) :=
  records_from (in_separator args) (file_lines (translate_newlines text)) [].

(** *** The argument checks of [parse_args] *)

(** The two ways [parse_args] ends the run with [parser.error]. *)
Inductive usage_error : Type :=
| BadDirection
| MissingGoal.

(** [not args.goal]: the goal is absent or the empty string. *)
Definition goal_missing (args : Args) : bool :=
  match arg_goal args with
  | None => true
  | Some [] => true
  | Some (_ :: _) => false
  end.

(** The checks [parse_args] makes on the parsed arguments before it returns
    them. *)
Definition parse_args_checks (args : Args) : usage_error + Args :=
  if negb (existsb (str_eqb (arg_direction args))
                   [lit "old-to-new"; lit "new-to-old"])
  then inl BadDirection
  else if str_eqb (arg_direction args) (lit "new-to-old") && goal_missing args
  then inl MissingGoal
  else inr args.

(** *** More vocabulary *)

(** A header field of the new format has an integer after its first [=]. *)
Definition new_field_ok (field : str) : Prop :=
  exists p, nth_error (split "="%char field) 1 = Some p /\ is_int p.

(** The header splits at commas into exactly three such fields. *)
Definition new_header_ok (header : str) : Prop :=
  length (split ","%char header) = 3%nat
  /\ Forall new_field_ok (split ","%char header).

(** Every space-separated token of the line is an integer. *)
Definition new_column_ok (column : str) : Prop :=
  Forall is_int (split " "%char column).

(** A board built by [Board_init] from at least one column, none empty. *)
Definition has_columns (b : Board) : Prop :=
  exists vn vk chips g,
    b = Board_init vn vk chips g
    /\ chips <> [] /\ Forall (fun c => c <> []) chips.

(** The lines of a board's text in each format, when it serializes. *)
Definition board_lines (datatype : DataType) (b : Board) : result (list str) :=
  match datatype with
  | OLD => max_row <- calc_max_row b ;; Ok (old_head b max_row :: old_body b)
  | NEW => Ok (new_head b :: new_body b)
  end.

(** What [boards_to_file] writes for one board: its text, a newline, the
    separator and a newline. *)
Definition chunk (sep text : str) : str := text ++ [nl] ++ sep ++ [nl].

(** [c] does not occur in [s]. *)
Definition absentb (c : ascii) (s : str) : bool :=
  negb (existsb (Ascii.eqb c) s).

(** [s] begins with a character that is not white space. *)
Definition starts_tight (s : str) : bool :=
  match s with
  | [] => false
  | c :: _ => negb (isspace c)
  end.

(** [s] is not empty and neither begins nor ends with white space. *)
Definition tight (s : str) : bool := starts_tight s && starts_tight (rev s).

(** A separator the reader finds again in a written file: stripping leaves
    it unchanged, it spans one line and it holds no digit. *)
Definition plain_separator (sep : str) : Prop :=
  strip sep = sep /\ ~ In nl sep /\ ~ In cr sep
  /\ Forall (fun c => is_digit c = false) sep.

(** The text one iteration of the loop of [boards_to_file] serializes for
    a board: for the old format the goal of the arguments is set first. *)
Definition emit (args : Args) (board : Board) : result str :=
  match out_datatype args with
  | OLD => g <- goal_of args ;; toString (set_goal board g) OLD
  | NEW => toString board NEW
  end.

(** The records put one after the other, each followed by a separator
    line. *)
Definition join_records (sep : str) (records : list (list str)) : list str :=
  concat (map (fun record => record ++ [sep]) records).

(** The arguments with another goal. *)
Definition with_goal (args : Args) (g : option str) : Args :=
  mkArgs (arg_in args) (arg_out args) (arg_direction args) g
         (arg_isep args) (arg_osep args).

(** The line with its newline. *)
Definition addnl (line : str) : str := line ++ [nl].

(** [s] holds a digit. *)
Definition has_digit (s : str) : bool := existsb is_digit s.

(** A line the reader gives back as it is and does not take for the
    separator. *)
Definition content_line (sep line : str) : Prop :=
  strip line = line /\ line <> sep /\ ~ In nl line /\ ~ In cr line.

(** ** Facts about the built-ins *)

Section Sorting.

Lemma insert_perm (x : Z) (l : list Z) : Permutation (x :: l) (insert x l).
Proof.
  induction l as [|y l IH]; simpl; [reflexivity|].
  destruct (x <=? y); [reflexivity|].
  rewrite perm_swap. now apply perm_skip.
Qed.

Lemma sort_perm (l : list Z) : Permutation l (sort l).
Proof.
  induction l as [|x l IH]; simpl; [constructor|].
  rewrite <- insert_perm. now apply perm_skip.
Qed.

Lemma insert_sorted (x : Z) (l : list Z) :
  StronglySorted Z.le l -> StronglySorted Z.le (insert x l).
Proof.
  induction 1 as [|y l Hl IH Hy]; simpl.
  - repeat constructor.
  - destruct (Z.leb_spec x y) as [Hxy|Hxy].
    + constructor; [now constructor|].
      constructor; [assumption|].
      eapply Forall_impl; [|exact Hy]. simpl; intros; lia.
    + constructor; [assumption|].
      eapply Permutation_Forall; [apply insert_perm|].
      constructor; [lia|assumption].
Qed.

Lemma sort_sorted (l : list Z) : StronglySorted Z.le (sort l).
Proof.
  induction l as [|x l IH]; simpl; [constructor|].
  now apply insert_sorted.
Qed.

(** A sorted list of integers is determined by its elements. *)
Lemma sorted_perm_eq (l1 l2 : list Z) :
  StronglySorted Z.le l1 -> StronglySorted Z.le l2 ->
  Permutation l1 l2 -> l1 = l2.
Proof.
  intros H1; revert l2.
  induction H1 as [|a l1 Hs1 IH Ha]; intros l2 H2 HP.
  - apply Permutation_nil in HP. now subst.
  - destruct H2 as [|b l2 Hs2 Hb].
    + symmetry in HP. apply Permutation_nil in HP. discriminate.
    + assert (a = b) as ->.
      { assert (In a (b :: l2)) as [->|Hin]
          by (eapply Permutation_in; [exact HP|now left]); [reflexivity|].
        assert (In b (a :: l1)) as [->|Hin']
          by (eapply Permutation_in; [symmetry; exact HP|now left]);
          [reflexivity|].
        rewrite Forall_forall in Ha, Hb.
        specialize (Ha _ Hin'). specialize (Hb _ Hin). lia. }
      f_equal. apply IH; [assumption|].
      eapply Permutation_cons_inv; exact HP.
Qed.

Lemma sort_perm_eq (l1 l2 : list Z) :
  Permutation l1 l2 -> sort l1 = sort l2.
Proof.
  intros HP. apply sorted_perm_eq; try apply sort_sorted.
  rewrite <- !sort_perm. exact HP.
Qed.

Lemma sort_fixed (l : list Z) : StronglySorted Z.le l -> sort l = l.
Proof.
  intros H. apply sorted_perm_eq; [apply sort_sorted|assumption|].
  symmetry. apply sort_perm.
Qed.

Lemma sort_sort (l : list Z) : sort (sort l) = sort l.
Proof. apply sort_fixed, sort_sorted. Qed.

Lemma sort_reverse_rev (l : list Z) : sort_reverse l = rev (sort l).
Proof.
  unfold sort_reverse. f_equal. apply sort_perm_eq.
  symmetry. apply Permutation_rev.
Qed.

Lemma sort_reverse_sort (l : list Z) : sort_reverse (sort l) = sort_reverse l.
Proof. now rewrite !sort_reverse_rev, sort_sort. Qed.

Lemma sort_nil_inv (l : list Z) : sort l = [] -> l = [].
Proof.
  intros H. apply Permutation_nil. rewrite <- H. symmetry. apply sort_perm.
Qed.

Lemma sort_reverse_nil_inv (l : list Z) : sort_reverse l = [] -> l = [].
Proof.
  rewrite sort_reverse_rev. intros H. apply sort_nil_inv.
  apply (f_equal (@rev Z)) in H. now rewrite rev_involutive in H.
Qed.

End Sorting.

Section Numerals.

Lemma scan_uint (d : Decimal.uint) (acc : Z) :
  scan_digits false acc (uint_chars d) = Some (uint_val d acc, []).
Proof.
  revert acc. induction d; intros acc; simpl; try reflexivity; apply IHd.
Qed.

Lemma uint_val_acc (d : Decimal.uint) (p : positive) :
  uint_val d (Zpos p) = Zpos (Pos.of_uint_acc d p).
Proof.
  revert p.
  induction d; intros p; cbn [uint_val Pos.of_uint_acc]; try reflexivity;
    rewrite <- IHd; f_equal; lia.
Qed.

Lemma uint_val_0 (d : Decimal.uint) : uint_val d 0 = Z.of_N (Pos.of_uint d).
Proof.
  induction d; cbn [uint_val Pos.of_uint]; try reflexivity; try assumption;
    apply (uint_val_acc d).
Qed.

Lemma uint_chars_digits (d : Decimal.uint) :
  Forall (fun c => is_digit c = true) (uint_chars d).
Proof. induction d; simpl; constructor; auto. Qed.

Lemma digit_plain (c : ascii) :
  is_digit c = true ->
  int_space c = false /\ Ascii.eqb c "+"%char = false
  /\ Ascii.eqb c "-"%char = false /\ is_underscore c = false.
Proof.
  destruct c as [[] [] [] [] [] [] [] []]; intros H;
    try discriminate H; repeat split; reflexivity.
Qed.

Lemma int_digits (c : ascii) (s : str) (v : Z) :
  is_digit c = true ->
  scan_digits false 0 (c :: s) = Some (v, []) ->
  int (c :: s) = Ok v /\ int ("-"%char :: c :: s) = Ok (- v).
Proof.
  intros Hc Hscan.
  destruct (digit_plain c Hc) as (Hsp & Hplus & Hminus & _).
  unfold is_digit in Hc.
  split; unfold int; cbn [skip_space].
  - rewrite Hsp, Hplus, Hminus.
    destruct (digit c); [|discriminate]. now rewrite Hscan.
  - change (int_space "-"%char) with false. cbv iota.
    change (Ascii.eqb "-"%char "+"%char) with false.
    change (Ascii.eqb "-"%char "-"%char) with true. cbv iota.
    destruct (digit c); [|discriminate]. now rewrite Hscan.
Qed.

Lemma int_uint (d : Decimal.uint) :
  d <> Decimal.Nil ->
  int (uint_chars d) = Ok (Z.of_N (Pos.of_uint d))
  /\ int ("-"%char :: uint_chars d) = Ok (- Z.of_N (Pos.of_uint d)).
Proof.
  intros Hd. rewrite <- uint_val_0.
  pose proof (scan_uint d 0) as Hscan.
  pose proof (uint_chars_digits d) as Hdig.
  destruct (uint_chars d) as [|c s] eqn:E.
  - destruct d; simpl in E; congruence.
  - apply int_digits; [now inversion Hdig|assumption].
Qed.

Lemma to_uint_not_nil (p : positive) : Pos.to_uint p <> Decimal.Nil.
Proof.
  intros H. pose proof (DecimalPos.Unsigned.of_to p) as E.
  rewrite H in E. discriminate E.
Qed.

(** Reading back a printed integer gives the integer. *)
Lemma int_str_of_int (z : Z) : int (str_of_int z) = Ok z.
Proof.
  unfold str_of_int. destruct z as [|p|p]; cbn [Z.to_int].
  - reflexivity.
  - destruct (int_uint (Pos.to_uint p) (to_uint_not_nil p)) as [H _].
    rewrite H. now rewrite DecimalPos.Unsigned.of_to.
  - destruct (int_uint (Pos.to_uint p) (to_uint_not_nil p)) as [_ H].
    rewrite H. now rewrite DecimalPos.Unsigned.of_to.
Qed.

Lemma str_of_int_numeric (z : Z) :
  Forall (fun c => numeric_char c = true) (str_of_int z).
Proof.
  assert (forall d, Forall (fun c => numeric_char c = true) (uint_chars d))
    as Hd.
  { intros d. eapply Forall_impl; [|apply uint_chars_digits].
    unfold numeric_char. intros c ->. reflexivity. }
  unfold str_of_int. destruct (Z.to_int z); [apply Hd|].
  constructor; [reflexivity|apply Hd].
Qed.

Lemma str_of_int_not_nil (z : Z) : str_of_int z <> [].
Proof.
  intros H. pose proof (int_str_of_int z) as E. rewrite H in E.
  discriminate E.
Qed.

End Numerals.

Section Strings.

Lemma split_not_nil (c : ascii) (s : str) : split c s <> [].
Proof.
  destruct s as [|a s]; simpl; [discriminate|].
  destruct (Ascii.eqb a c); [discriminate|].
  destruct (split c s); discriminate.
Qed.

Lemma split_absent (c : ascii) (s : str) : ~ In c s -> split c s = [s].
Proof.
  induction s as [|a s IH]; simpl; intros H; [reflexivity|].
  destruct (Ascii.eqb_spec a c) as [->|_]; [tauto|].
  rewrite IH by tauto. reflexivity.
Qed.

Lemma split_app (c : ascii) (a b : str) :
  ~ In c a -> split c (a ++ c :: b) = a :: split c b.
Proof.
  induction a as [|x a IH]; simpl; intros H.
  - now rewrite Ascii.eqb_refl.
  - destruct (Ascii.eqb_spec x c) as [->|_]; [tauto|].
    rewrite IH by tauto. reflexivity.
Qed.

(** Splitting a joined list gives the list back when no element contains
    the separator. *)
Lemma split_join (c : ascii) (ls : list str) :
  ls <> [] -> Forall (fun l => ~ In c l) ls ->
  split c (join [c] ls) = ls.
Proof.
  induction ls as [|l ls IH]; intros Hne HF; [congruence|].
  inversion HF as [|? ? Hl HF']; subst.
  destruct ls as [|l' ls].
  - simpl. now apply split_absent.
  - change (join [c] (l :: l' :: ls)) with (l ++ c :: join [c] (l' :: ls)).
    rewrite split_app by assumption.
    rewrite IH; [reflexivity|discriminate|assumption].
Qed.

Lemma numeric_absent (c : ascii) (s : str) :
  numeric_char c = false ->
  Forall (fun x => numeric_char x = true) s -> ~ In c s.
Proof.
  intros Hc HF Hin. rewrite Forall_forall in HF.
  specialize (HF _ Hin). congruence.
Qed.

Lemma str_of_int_absent (c : ascii) (z : Z) :
  numeric_char c = false -> ~ In c (str_of_int z).
Proof. intros Hc. eapply numeric_absent; [exact Hc|apply str_of_int_numeric]. Qed.

Lemma str_eqb_eq (a b : str) : str_eqb a b = true <-> a = b.
Proof.
  unfold str_eqb. destruct (list_eq_dec ascii_dec a b); split;
    congruence.
Qed.

Lemma str_eqb_refl (a : str) : str_eqb a a = true.
Proof. now apply str_eqb_eq. Qed.

End Strings.

Section Results.

Context {A B : Type}.

Lemma mapM_Ok (f : A -> result B) (l : list A) (ys : list B) :
  mapM f l = Ok ys <-> Forall2 (fun x y => f x = Ok y) l ys.
Proof.
  revert ys. induction l as [|x l IH]; intros ys; simpl.
  - split; [intros [= <-]; constructor|inversion 1; reflexivity].
  - destruct (f x) as [y|e] eqn:Ex; simpl.
    + destruct (mapM f l) as [zs|e] eqn:El; simpl.
      * split.
        -- intros [= <-]. constructor; [assumption|now apply IH].
        -- inversion 1 as [|? ? ? ? Hx Hl]; subst.
           apply IH in Hl. congruence.
      * split; [discriminate|].
        inversion 1 as [|? ? ? ? Hx Hl]; subst.
        apply IH in Hl. discriminate.
    + split; [discriminate|].
      inversion 1 as [|? ? ? ? Hx Hl]; subst. congruence.
Qed.

Lemma mapM_map {C : Type} (f : A -> result B) (g : C -> A) (h : C -> B)
    (l : list C) :
  (forall x, In x l -> f (g x) = Ok (h x)) ->
  mapM f (map g l) = Ok (map h l).
Proof.
  induction l as [|x l IH]; simpl; intros H; [reflexivity|].
  rewrite H by now left. simpl. rewrite IH by (intros; apply H; now right).
  reflexivity.
Qed.

Lemma mapM_length (f : A -> result B) (l : list A) (ys : list B) :
  mapM f l = Ok ys -> length ys = length l.
Proof.
  intros H. apply mapM_Ok in H. symmetry. eapply Forall2_length; eauto.
Qed.

End Results.

(** ** Sorted columns and their largest elements *)

Section SortSpec.

Lemma sorted_snoc (l : list Z) (a : Z) :
  StronglySorted Z.le l -> Forall (fun x => x <= a) l ->
  StronglySorted Z.le (l ++ [a]).
Proof.
  induction 1 as [|x l Hl IH Hx]; intros Ha; simpl.
  - repeat constructor.
  - inversion Ha; subst. constructor; [now apply IH|].
    apply Forall_app. split; [assumption|now constructor].
Qed.

Lemma sorted_ge_rev (d : list Z) :
  StronglySorted Z.ge d -> StronglySorted Z.le (rev d).
Proof.
  induction 1 as [|a d Hd IH Ha]; simpl; [constructor|].
  apply sorted_snoc; [assumption|].
  apply Forall_rev. eapply Forall_impl; [|exact Ha]. simpl; intros; lia.
Qed.

Lemma sorted_le_rev (d : list Z) :
  StronglySorted Z.le d -> StronglySorted Z.ge (rev d).
Proof.
  induction 1 as [|a d Hd IH Ha]; simpl; [constructor|].
  assert (forall l, StronglySorted Z.ge l -> Forall (fun x => x >= a) l ->
                    StronglySorted Z.ge (l ++ [a])) as Hsnoc.
  { induction 1 as [|x l Hl IHl Hx]; intros Hge; simpl.
    - repeat constructor.
    - inversion Hge; subst. constructor; [now apply IHl|].
      apply Forall_app. split; [assumption|now constructor]. }
  apply Hsnoc; [assumption|].
  apply Forall_rev. eapply Forall_impl; [|exact Ha]. simpl; intros; lia.
Qed.

Lemma sort_ascending (c : list Z) : ascending c (sort c).
Proof. split; [apply sort_perm|apply sort_sorted]. Qed.

Lemma sort_reverse_descending (c : list Z) : descending c (sort_reverse c).
Proof.
  rewrite sort_reverse_rev. split.
  - rewrite <- Permutation_rev. apply sort_perm.
  - apply sorted_le_rev, sort_sorted.
Qed.

Lemma ascending_unique (c d : list Z) : ascending c d -> d = sort c.
Proof.
  intros [HP HS]. apply sorted_perm_eq; [assumption|apply sort_sorted|].
  rewrite <- HP. apply sort_perm.
Qed.

Lemma descending_unique (c d : list Z) : descending c d -> d = sort_reverse c.
Proof.
  intros [HP HS]. rewrite sort_reverse_rev.
  rewrite <- (rev_involutive d). f_equal.
  apply ascending_unique. split; [|now apply sorted_ge_rev].
  rewrite HP. apply Permutation_rev.
Qed.

(** The first element of a descending list is its largest element. *)
Lemma descending_head (c d : list Z) (x : Z) :
  descending c d -> hd_error d = Some x -> is_max c x.
Proof.
  intros [HP HS] Hhd. destruct d as [|y d]; [discriminate|].
  injection Hhd as ->. inversion HS as [|? ? _ Hx]; subst.
  rewrite Forall_forall in Hx. split.
  - eapply Permutation_in; [symmetry; exact HP|now left].
  - intros z Hz. apply (Permutation_in _ HP) in Hz.
    destruct Hz as [->|Hz]; [lia|]. specialize (Hx _ Hz). lia.
Qed.

Lemma max_is_max (l : list Z) (m : Z) : max l = Ok m -> is_max l m.
Proof.
  destruct l as [|x xs]; [discriminate|]. simpl. intros [= <-].
  revert x. induction xs as [|y ys IH]; intros x; simpl.
  - split; [now left|]. intros z [<-|[]]. lia.
  - destruct (IH (if x <? y then y else x)) as [Hin Hle]. split.
    + destruct Hin as [Hin|Hin]; [|now right; right].
      rewrite <- Hin. destruct (x <? y); [right|]; now left.
    + intros z [<-|[<-|Hz]].
      * specialize (Hle _ (or_introl eq_refl)).
        destruct (Z.ltb_spec x y); lia.
      * specialize (Hle _ (or_introl eq_refl)).
        destruct (Z.ltb_spec x y); lia.
      * apply Hle. now right.
Qed.

Lemma is_max_unique (l : list Z) (m m' : Z) :
  is_max l m -> is_max l m' -> m = m'.
Proof.
  intros [Hin Hle] [Hin' Hle'].
  specialize (Hle _ Hin'). specialize (Hle' _ Hin). lia.
Qed.

(** The first elements of non-empty columns. *)
Lemma firsts_nonempty (cols : list (list Z)) :
  Forall (fun c => c <> []) cols ->
  exists fs, mapM (fun column => index column 0) cols = Ok fs
             /\ Forall2 (fun c x => hd_error c = Some x) cols fs.
Proof.
  induction 1 as [|c cols Hc _ (fs & E & HF)].
  - exists []. split; [reflexivity|constructor].
  - destruct c as [|x c]; [congruence|].
    exists (x :: fs). simpl. rewrite E. split; [reflexivity|].
    constructor; [reflexivity|assumption].
Qed.

Lemma firsts_inv (cols : list (list Z)) (fs : list Z) :
  mapM (fun column => index column 0) cols = Ok fs ->
  Forall2 (fun c x => hd_error c = Some x) cols fs.
Proof.
  intros H. apply mapM_Ok in H.
  eapply Forall2_impl; [|exact H]. simpl.
  intros [|a c] x; unfold index; simpl; congruence.
Qed.

End SortSpec.

(** ** The serializer *)

Section Serializer.

Lemma sum_from (l : list Z) (a : Z) : fold_left Z.add l a = a + sum l.
Proof.
  unfold sum. revert a. induction l as [|x l IH]; intros a; simpl; [lia|].
  rewrite (IH (a + x)), (IH x). lia.
Qed.

Lemma sum_cons (x : Z) (l : list Z) : sum (x :: l) = x + sum l.
Proof. unfold sum at 1. simpl. apply sum_from. Qed.

Lemma filter_length_perm (f : Z -> bool) (l l' : list Z) :
  Permutation l l' -> length (filter f l) = length (filter f l').
Proof.
  induction 1 as [|x l l' _ IH|x y l|l l' l'' _ IH1 _ IH2]; simpl.
  - reflexivity.
  - destruct (f x); simpl; congruence.
  - destruct (f x), (f y); reflexivity.
  - congruence.
Qed.

Lemma calc_num_chips_init (vn vk : Z) (chips : list (list Z)) (g : Z) :
  calc_num_chips (Board_init vn vk chips g) = count_nonneg chips.
Proof.
  unfold calc_num_chips, count_nonneg. cbn [chips_asc Board_init].
  induction chips as [|c chips IH]; [reflexivity|].
  cbn [map concat]. rewrite sum_cons, IH, filter_app, length_app.
  rewrite Nat2Z.inj_add. f_equal. f_equal.
  rewrite <- (filter_length_perm _ _ _ (sort_perm c)).
  f_equal. apply filter_ext. intros r. apply Z.geb_leb.
Qed.

Lemma calc_num_chips_set_goal (b : Board) (g : Z) :
  calc_num_chips (set_goal b g) = calc_num_chips b.
Proof. reflexivity. Qed.

Lemma sort_reverse_nonempty (chips : list (list Z)) :
  Forall (fun c => c <> []) chips ->
  Forall (fun c => c <> []) (map sort_reverse chips).
Proof.
  intros H. apply Forall_map. eapply Forall_impl; [|exact H].
  intros c Hc E. apply Hc. now apply sort_reverse_nil_inv.
Qed.

(** With at least one column and no empty column [calc_max_row] returns
    the largest of the columns' first elements in descending order. *)
Lemma calc_max_row_defined (vn vk : Z) (chips : list (list Z)) (g : Z) :
  chips <> [] -> Forall (fun c => c <> []) chips ->
  exists m firsts,
    calc_max_row (Board_init vn vk chips g) = Ok m
    /\ Forall2 (fun c x => hd_error (sort_reverse c) = Some x) chips firsts
    /\ is_max firsts m.
Proof.
  intros Hne Hcols.
  destruct (firsts_nonempty _ (sort_reverse_nonempty _ Hcols))
    as (fs & E & HF).
  assert (Forall2 (fun c x => hd_error (sort_reverse c) = Some x) chips fs)
    as HF'.
  { clear E Hne Hcols. revert fs HF.
    induction chips as [|c chips IH]; intros fs HF; inversion HF; subst;
      constructor; auto. }
  destruct fs as [|x fs].
  - inversion HF'; subst. congruence.
  - exists (fold_left (fun m y => if m <? y then y else m) fs x), (x :: fs).
    unfold calc_max_row. cbn [chips_desc Board_init]. rewrite E.
    split; [reflexivity|]. split; [assumption|]. now apply max_is_max.
Qed.

(** The largest first element is the largest value of the whole board. *)
Lemma max_of_firsts (chips : list (list Z)) (firsts : list Z) (m : Z) :
  Forall2 (fun c x => hd_error (sort_reverse c) = Some x) chips firsts ->
  is_max firsts m -> is_max (concat chips) m.
Proof.
  intros HF [Hin Hle]. split.
  - clear Hle. induction HF as [|c x chips fs Hx _ IH]; [destruct Hin|].
    simpl. apply in_or_app. destruct Hin as [<-|Hin]; [left|right; auto].
    apply (descending_head c _ x (sort_reverse_descending c) Hx).
  - clear Hin. intros z Hz.
    induction HF as [|c x chips fs Hx _ IH]; [destruct Hz|].
    simpl in Hz. apply in_app_or in Hz. destruct Hz as [Hz|Hz].
    + pose proof (descending_head c _ x (sort_reverse_descending c) Hx)
        as [_ Hmax].
      specialize (Hmax _ Hz). specialize (Hle x (or_introl eq_refl)). lia.
    + apply IH; [|assumption]. intros y Hy. apply Hle. now right.
Qed.

End Serializer.

(** C2, as the claim words it, does not hold: [calc_max_row] takes the
    largest, not the smallest, of the columns' first elements in descending
    order. For the columns [[1]] and [[2]] it returns 2. *)
Lemma calc_max_row_not_minimum :
  ~ (forall vn vk chips g m,
        calc_max_row (Board_init vn vk chips g) = Ok m ->
        is_min (map (hd 0) (map sort_reverse chips)) m).
Proof.
  intros H. destruct (H 1 2 [[1]; [2]] 0 2 eq_refl) as [_ Hmin].
  specialize (Hmin 1 (or_introl eq_refl)). lia.
Qed.

(** C2, amended: for a board with at least one column and no empty column,
    [calc_max_row] returns the maximum, across columns, of each column's
    first element after sorting that column in descending order. *)
Theorem calc_max_row_is_maximum (vn vk : Z) (chips : list (list Z)) (g : Z) :
  chips <> [] -> Forall (fun c => c <> []) chips ->
  exists m firsts,
    calc_max_row (Board_init vn vk chips g) = Ok m
    /\ Forall2 (fun c x => forall d, descending c d -> hd_error d = Some x)
               chips firsts
    /\ is_max firsts m.
Proof.
  intros Hne Hcols.
  destruct (calc_max_row_defined vn vk chips g Hne Hcols)
    as (m & fs & E & HF & Hmax).
  exists m, fs. repeat split; try assumption; try apply Hmax.
  eapply Forall2_impl; [|exact HF]. simpl.
  intros c x Hx d Hd. now rewrite (descending_unique c d Hd).
Qed.

Lemma calc_max_row_is_maximum_witness :
  exists m firsts,
    calc_max_row (Board_init 3 2 [[0; 4; -1]; [2; 7]] 1) = Ok m
    /\ Forall2 (fun c x => forall d, descending c d -> hd_error d = Some x)
               [[0; 4; -1]; [2; 7]] firsts
    /\ is_max firsts m.
Proof.
  apply (calc_max_row_is_maximum 3 2 [[0; 4; -1]; [2; 7]] 1).
  - discriminate.
  - repeat constructor; discriminate.
Defined.

Section Layout.

Lemma removesuffix_app (suffix a : str) : removesuffix suffix (a ++ suffix) = a.
Proof.
  unfold removesuffix. rewrite length_app, Nat.add_sub.
  rewrite skipn_app, skipn_all, Nat.sub_diag. simpl.
  rewrite str_eqb_refl.
  now rewrite firstn_app, firstn_all, Nat.sub_diag, firstn_O, app_nil_r.
Qed.

Lemma split_join_map (c : ascii) (f : Z -> str) (l : list Z) :
  l <> [] -> (forall r, ~ In c (f r)) ->
  split c (join [c] (map f l)) = map f l.
Proof.
  intros Hne Hf. apply split_join.
  - destruct l; [congruence|discriminate].
  - apply Forall_map, Forall_forall. intros r _. apply Hf.
Qed.

Lemma old_token_chars (c : ascii) (r : Z) :
  numeric_char c = false -> c <> ":"%char ->
  ~ In c (str_of_int r ++ lit ":0").
Proof.
  intros Hc Hcolon Hin. apply in_app_or in Hin. destruct Hin as [Hin|Hin].
  - now apply (str_of_int_absent c r Hc).
  - simpl in Hin. destruct Hin as [E|[E|[]]]; [congruence|].
    subst c. discriminate Hc.
Qed.

Lemma old_line_tokens (column : list Z) :
  column <> [] ->
  split " "%char (old_line column)
  = map (fun r => str_of_int r ++ lit ":0") column.
Proof.
  intros Hne. apply (split_join_map " "%char); [assumption|].
  intros r. apply old_token_chars; [reflexivity|discriminate].
Qed.

Lemma new_line_tokens (column : list Z) :
  column <> [] ->
  split " "%char (new_line column) = map str_of_int column.
Proof.
  intros Hne. apply (split_join_map " "%char); [assumption|].
  intros r. now apply str_of_int_absent.
Qed.

Lemma old_line_no_newline (column : list Z) : ~ In nl (old_line column).
Proof.
  unfold old_line.
  induction column as [|r column IH]; [intros []|].
  destruct column as [|r' column].
  - simpl. apply old_token_chars; [reflexivity|discriminate].
  - change (~ In nl ((str_of_int r ++ lit ":0") ++ lit " "
                     ++ join (lit " ")
                          (map (fun r => str_of_int r ++ lit ":0")
                               (r' :: column)))).
    intros Hin. apply in_app_or in Hin. destruct Hin as [Hin|Hin].
    + revert Hin. apply old_token_chars; [reflexivity|discriminate].
    + destruct Hin as [E|Hin]; [discriminate E|]. now apply IH.
Qed.

Lemma join_lines (h : str) (body : list str) :
  body <> [] -> h ++ [nl] ++ join [nl] body = join [nl] (h :: body).
Proof. destruct body; [congruence|reflexivity]. Qed.

End Layout.

(** C3, as the claim words it, does not hold for a board that has a
    non-empty column and an empty one: [calc_max_row] indexes the empty
    column and the serialization raises. *)
Lemma toString_old_empty_column_raises :
  ~ (forall vn vk chips g,
        (exists c, In c chips /\ c <> []) ->
        exists text, toString (Board_init vn vk chips g) OLD = Ok text).
Proof.
  intros H. destruct (H 1 2 [[1]; []] 0) as [text E].
  - exists [1]. split; [now left|discriminate].
  - discriminate E.
Qed.

(** C3, amended: for a board with at least one column and no empty column,
    the old-format text is the header [n,k,goal,maxRow,numChips], where
    [maxRow] is the largest value of the board and [numChips] the number of
    non-negative values, followed by one line per column holding the
    column's values in ascending order, each as [row:0], joined by spaces. *)
Theorem toString_old_layout (vn vk : Z) (chips : list (list Z)) (g : Z) :
  chips <> [] -> Forall (fun c => c <> []) chips ->
  exists m cols,
    toString (Board_init vn vk chips g) OLD
    = Ok (join [nl]
            (join (lit ",")
               [str_of_int vn; str_of_int vk; str_of_int g; str_of_int m;
                str_of_int (count_nonneg chips)]
             :: map (fun col =>
                       join (lit " ")
                            (map (fun r => str_of_int r ++ lit ":0") col))
                    cols))
    /\ is_max (concat chips) m
    /\ Forall2 ascending chips cols.
Proof.
  intros Hne Hcols.
  destruct (calc_max_row_defined vn vk chips g Hne Hcols)
    as (m & fs & E & HF & Hmax).
  exists m, (map sort chips). split; [|split].
  - unfold toString. rewrite E. cbn [bind]. f_equal.
    unfold old_head, old_body. cbn [n k goal chips_asc Board_init].
    rewrite calc_num_chips_init.
    destruct chips as [|c chips]; [congruence|]. reflexivity.
  - eapply max_of_firsts; eassumption.
  - clear. induction chips; constructor; auto using sort_ascending.
Qed.

Lemma toString_old_layout_witness :
  exists m cols,
    toString (Board_init 3 2 [[0; 4; -1]; [2; 7]] 1) OLD
    = Ok (join [nl]
            (join (lit ",")
               [str_of_int 3; str_of_int 2; str_of_int 1; str_of_int m;
                str_of_int (count_nonneg [[0; 4; -1]; [2; 7]])]
             :: map (fun col =>
                       join (lit " ")
                            (map (fun r => str_of_int r ++ lit ":0") col))
                    cols))
    /\ is_max (concat [[0; 4; -1]; [2; 7]]) m
    /\ Forall2 ascending [[0; 4; -1]; [2; 7]] cols.
Proof.
  apply (toString_old_layout 3 2 [[0; 4; -1]; [2; 7]] 1).
  - discriminate.
  - repeat constructor; discriminate.
Defined.

(** ** The parser builds boards with [Board_init] *)

Lemma fromString_inv (datatype : DataType) (lines : list str) (b : Board) :
  fromString datatype lines = Ok b ->
  exists vn vk g chips,
    parsed_chips datatype lines = Ok chips /\ b = Board_init vn vk chips g.
Proof.
  unfold fromString, parsed_chips. destruct datatype.
  - destruct (index lines 0) as [header|]; [|discriminate]. cbn [bind].
    destruct (unpack int 5 _) as [fields|]; [|discriminate]. cbn [bind].
    destruct fields as [|a [|b0 [|c [|d [|e [|]]]]]]; try discriminate.
    destruct (mapM _ (tl lines)) as [chips|]; [|discriminate]. cbn [bind].
    intros [= <-]. now exists a, b0, c, chips.
  - destruct (index lines 0) as [header|]; [|discriminate]. cbn [bind].
    destruct (unpack new_field 3 _) as [fields|]; [|discriminate].
    cbn [bind].
    destruct fields as [|a [|b0 [|c [|]]]]; try discriminate.
    destruct (mapM _ (tl lines)) as [chips|]; [|discriminate]. cbn [bind].
    intros [= <-]. now exists a, b0, 0, chips.
Qed.

(** C6: the [numChips] field of the output header, in either target format
    (with the goal the orchestration sets for the old format), is the number
    of values [>= 0] in the columns parsed from the input record. *)
Theorem num_chips_on_output (datatype : DataType) (lines : list str)
    (b : Board) :
  fromString datatype lines = Ok b ->
  exists chips,
    parsed_chips datatype lines = Ok chips
    /\ toString b NEW
       = Ok (lit "n=" ++ str_of_int (n b) ++ lit ",k=" ++ str_of_int (k b)
             ++ lit ",n_chips=" ++ str_of_int (count_nonneg chips)
             ++ [nl] ++ join [nl] (new_body b))
    /\ forall g text,
         toString (set_goal b g) OLD = Ok text ->
         exists max_row,
           text = str_of_int (n b) ++ lit "," ++ str_of_int (k b) ++ lit ","
                  ++ str_of_int g ++ lit "," ++ str_of_int max_row ++ lit ","
                  ++ str_of_int (count_nonneg chips)
                  ++ [nl] ++ join [nl] (old_body b).
Proof.
  intros Hparse.
  destruct (fromString_inv _ _ _ Hparse) as (vn & vk & g0 & chips & Hc & ->).
  exists chips. split; [assumption|]. split.
  - unfold toString, new_head. rewrite calc_num_chips_init.
    cbn [n k Board_init]. f_equal. now rewrite <- !app_assoc.
  - intros g text. unfold toString.
    destruct (calc_max_row _) as [m|]; [|discriminate]. cbn [bind].
    intros [= <-]. exists m. unfold old_head.
    rewrite calc_num_chips_set_goal, calc_num_chips_init.
    cbn [n k goal set_goal Board_init]. now rewrite <- !app_assoc.
Qed.

Lemma num_chips_on_output_witness :
  exists chips,
    parsed_chips OLD [lit "2,2,9,0,0"; lit "3:0 -1:0"; lit "0:1"] = Ok chips
    /\ toString (Board_init 2 2 [[3; -1]; [0]] 9) NEW
       = Ok (lit "n=" ++ str_of_int 2 ++ lit ",k=" ++ str_of_int 2
             ++ lit ",n_chips=" ++ str_of_int (count_nonneg chips)
             ++ [nl] ++ join [nl] (new_body (Board_init 2 2 [[3; -1]; [0]] 9)))
    /\ forall g text,
         toString (set_goal (Board_init 2 2 [[3; -1]; [0]] 9) g) OLD = Ok text ->
         exists max_row,
           text = str_of_int 2 ++ lit "," ++ str_of_int 2 ++ lit ","
                  ++ str_of_int g ++ lit "," ++ str_of_int max_row ++ lit ","
                  ++ str_of_int (count_nonneg chips)
                  ++ [nl]
                  ++ join [nl] (old_body (Board_init 2 2 [[3; -1]; [0]] 9)).
Proof.
  apply (num_chips_on_output OLD
           [lit "2,2,9,0,0"; lit "3:0 -1:0"; lit "0:1"]
           (Board_init 2 2 [[3; -1]; [0]] 9)).
  reflexivity.
Defined.

Section Bodies.

Lemma old_new_line (column : list Z) :
  map (removesuffix (lit ":0")) (split " "%char (old_line (sort column)))
  = rev (split " "%char (new_line (sort_reverse column))).
Proof.
  rewrite sort_reverse_rev.
  destruct (sort column) as [|r l] eqn:E; [reflexivity|].
  rewrite old_line_tokens by discriminate.
  rewrite new_line_tokens.
  - rewrite map_map, <- map_rev, rev_involutive.
    apply map_ext. intros x. apply removesuffix_app.
  - intros H. apply (f_equal (@rev Z)) in H.
    rewrite rev_involutive in H. discriminate H.
Qed.

Lemma toString_new_total (b : Board) : exists text, toString b NEW = Ok text.
Proof. eexists. reflexivity. Qed.

Lemma toString_old_defined (vn vk : Z) (chips : list (list Z)) (g : Z) :
  chips <> [] -> Forall (fun c => c <> []) chips ->
  exists text, toString (Board_init vn vk chips g) OLD = Ok text.
Proof.
  intros Hne Hcols.
  destruct (calc_max_row_defined vn vk chips g Hne Hcols) as (m & _ & E & _).
  unfold toString. rewrite E. eexists. reflexivity.
Qed.

End Bodies.

(** C8: for every board, the old-format body and the new-format body have
    a line per column, and the tokens of a column's old-format line, with
    their [:0] suffixes removed, are the tokens of the column's new-format
    line in reverse order; the stored ascending columns are the reversed
    descending columns. *)
Theorem bodies_are_reverses (vn vk : Z) (chips : list (list Z)) (g : Z) :
  Forall2 (fun old new =>
             map (removesuffix (lit ":0")) (split " "%char old)
             = rev (split " "%char new))
          (old_body (Board_init vn vk chips g))
          (new_body (Board_init vn vk chips g))
  /\ chips_asc (Board_init vn vk chips g)
     = map (@rev Z) (chips_desc (Board_init vn vk chips g)).
Proof.
  unfold old_body, new_body. cbn [chips_asc chips_desc Board_init]. split.
  - induction chips as [|c chips IH]; cbn [map]; constructor;
      [apply old_new_line|exact IH].
  - rewrite map_map. apply map_ext. intros c.
    now rewrite sort_reverse_rev, rev_involutive.
Qed.

(** C9 fails on the code: a board without columns, which the parser builds
    from a record that has only its header line, cannot be serialized to the
    old format, because [max] is applied to an empty sequence; the new
    format serializes the same board. *)
Theorem toString_old_no_columns_raises :
  fromString NEW [lit "n=1,k=0,n_chips=0"] = Ok (Board_init 1 0 [] 0)
  /\ toString (set_goal (Board_init 1 0 [] 0) 5) OLD = Raise ValueError
  /\ toString (Board_init 1 0 [] 0) NEW = Ok (lit "n=1,k=0,n_chips=0" ++ [nl]).
Proof. repeat split. Qed.

(** ** The parser *)

Section Parser.

Lemma mapM_defined {A B : Type} (f : A -> result B) (l : list A) :
  (exists ys, mapM f l = Ok ys) <-> Forall (fun x => exists y, f x = Ok y) l.
Proof.
  induction l as [|x l IH]; simpl.
  - split; [constructor|intros _; now exists []].
  - split.
    + intros [ys E]. destruct (f x) as [y|] eqn:Ex; [|discriminate].
      cbn [bind] in E. destruct (mapM f l) as [zs|] eqn:El; [|discriminate].
      constructor; [now exists y|]. apply IH. now exists zs.
    + inversion 1 as [|? ? [y Ey] Hl]; subst.
      apply IH in Hl. destruct Hl as [zs Ez].
      rewrite Ey, Ez. now exists (y :: zs).
Qed.

Lemma mapM_only_raises {A B : Type} (f : A -> result B) (e0 : exn) :
  only_raises f e0 -> only_raises (mapM f) e0.
Proof.
  intros Hf l. induction l as [|x l IH]; intros e; simpl; [discriminate|].
  destruct (f x) as [y|e1] eqn:Ex; cbn [bind].
  - destruct (mapM f l) as [zs|e2]; cbn [bind]; [discriminate|].
    intros [= <-]. now apply IH.
  - intros [= <-]. eapply Hf; eassumption.
Qed.

Lemma take_map_Ok {A B : Type} (f : A -> result B) (cnt : nat) (l : list A)
    (ys : list B) :
  take_map f cnt l = Ok (ys, []) <-> length l = cnt /\ mapM f l = Ok ys.
Proof.
  revert l ys. induction cnt as [|cnt IH]; intros l ys; simpl.
  - split.
    + intros [= <- ->]. split; reflexivity.
    + intros [Hl E]. destruct l; [|discriminate]. simpl in E. congruence.
  - destruct l as [|x l]; simpl.
    + split; [discriminate|intros [H _]; discriminate].
    + destruct (f x) as [y|] eqn:Ex; cbn [bind].
      * destruct (take_map f cnt l) as [[zs rest]|] eqn:Et; cbn [bind fst snd].
        -- split.
           ++ intros [= <- ->]. apply IH in Et. destruct Et as [Hl Em].
              rewrite Em. split; [now f_equal|reflexivity].
           ++ intros [Hl Em]. injection Hl as Hl.
              destruct (mapM f l) as [ws|] eqn:Ew; [|discriminate].
              cbn [bind] in Em. injection Em as <-.
              assert (take_map f cnt l = Ok (ws, [])) as Et'
                by now apply IH.
              rewrite Et in Et'. now injection Et' as -> ->.
        -- split; [discriminate|]. intros [Hl Em]. injection Hl as Hl.
           destruct (mapM f l) as [ws|] eqn:Ew; [|discriminate].
           assert (take_map f cnt l = Ok (ws, [])) as Et' by now apply IH.
           congruence.
      * split; [discriminate|intros [_ H]; discriminate].
Qed.

(** Unpacking succeeds exactly when the list has the expected number of
    items and every item converts. *)
Lemma unpack_Ok {A B : Type} (f : A -> result B) (cnt : nat) (l : list A)
    (ys : list B) :
  unpack f cnt l = Ok ys <-> length l = cnt /\ mapM f l = Ok ys.
Proof.
  unfold unpack. rewrite <- take_map_Ok.
  destruct (take_map f cnt l) as [[zs rest]|]; cbn [bind fst snd].
  - destruct rest as [|x rest].
    + split; congruence.
    + split; [|discriminate].
      destruct (f x); discriminate.
  - split; discriminate.
Qed.

Lemma take_map_only_raises {A B : Type} (f : A -> result B) (cnt : nat) :
  only_raises f ValueError -> only_raises (take_map f cnt) ValueError.
Proof.
  intros Hf. induction cnt as [|cnt IH]; intros l e; simpl; [discriminate|].
  destruct l as [|x l]; [congruence|].
  destruct (f x) as [y|e1] eqn:Ex; cbn [bind].
  - destruct (take_map f cnt l) as [r|e2] eqn:Et; cbn [bind]; [discriminate|].
    intros [= <-]. eapply IH; eassumption.
  - intros [= <-]. eapply Hf; eassumption.
Qed.

Lemma unpack_only_raises {A B : Type} (f : A -> result B) (cnt : nat) :
  only_raises f ValueError -> only_raises (unpack f cnt) ValueError.
Proof.
  intros Hf l e. unfold unpack.
  destruct (take_map f cnt l) as [[zs rest]|e1] eqn:Et; cbn [bind snd].
  - destruct rest as [|x rest]; [discriminate|].
    destruct (f x) as [y|e2] eqn:Ex; cbn [bind]; [congruence|].
    intros [= <-]. eapply Hf; eassumption.
  - intros [= <-]. eapply take_map_only_raises; eassumption.
Qed.

Lemma int_only_raises : only_raises int ValueError.
Proof.
  intros s e. unfold int.
  repeat match goal with
         | |- context [match ?x with _ => _ end] => destruct x
         end; congruence.
Qed.

Lemma old_token_before_colon (t : str) : old_token t = int (before_colon t).
Proof.
  unfold old_token, before_colon, index.
  pose proof (split_not_nil ":"%char t).
  destruct (split ":"%char t); [congruence|reflexivity].
Qed.

Lemma old_token_only_raises : only_raises old_token ValueError.
Proof.
  intros t e. rewrite old_token_before_colon. apply int_only_raises.
Qed.

End Parser.

Section OldParser.

Lemma old_columns_defined (cols : list str) :
  (exists chips,
      mapM (fun column => mapM old_token (split " "%char column)) cols
      = Ok chips)
  <-> Forall old_column_ok cols.
Proof.
  rewrite mapM_defined.
  split; intros H; (eapply Forall_impl; [|exact H]); intros column Hc.
  - apply mapM_defined in Hc. unfold old_column_ok.
    eapply Forall_impl; [|exact Hc]. intros t [z Ez].
    exists z. now rewrite <- old_token_before_colon.
  - apply mapM_defined. unfold old_column_ok in Hc.
    eapply Forall_impl; [|exact Hc]. intros t [z Ez].
    exists z. now rewrite old_token_before_colon.
Qed.

Lemma old_header_defined (header : str) :
  (exists fields, unpack int 5 (split ","%char header) = Ok fields)
  <-> old_header_ok header.
Proof.
  unfold old_header_ok. split.
  - intros [fields E]. apply unpack_Ok in E. destruct E as [Hl Em].
    split; [assumption|]. apply (mapM_defined int). now exists fields.
  - intros [Hl Hi]. apply (mapM_defined int) in Hi. destruct Hi as [fields E].
    exists fields. apply unpack_Ok. now split.
Qed.

Lemma fromString_old_defined (header : str) (cols : list str) :
  (exists b, fromString OLD (header :: cols) = Ok b)
  <-> old_header_ok header /\ Forall old_column_ok cols.
Proof.
  rewrite <- old_header_defined, <- old_columns_defined.
  unfold fromString. cbn [index nth_error bind tl].
  destruct (unpack int 5 (split ","%char header)) as [fields|e] eqn:Eu;
    cbn [bind].
  - pose proof Eu as Hlen. apply unpack_Ok in Hlen. destruct Hlen as [Hl Em].
    apply mapM_length in Em. rewrite Hl in Em.
    destruct fields as [|a [|b0 [|c [|d [|e [|]]]]]]; try discriminate Em.
    destruct (mapM _ cols) as [chips|e1]; cbn [bind].
    + split; [intros _|intros _; eexists; reflexivity].
      split; eexists; reflexivity.
    + split; [intros [b E]; discriminate E|].
      intros [_ [chips E]]. discriminate E.
  - split; [intros [b E]; discriminate E|].
    intros [[fields E] _]. discriminate E.
Qed.

Lemma fromString_old_only_raises (header : str) (cols : list str) (e : exn) :
  fromString OLD (header :: cols) = Raise e -> e = ValueError.
Proof.
  unfold fromString. cbn [index nth_error bind tl].
  destruct (unpack int 5 (split ","%char header)) as [fields|e1] eqn:Eu;
    cbn [bind].
  - destruct fields as [|a [|b0 [|c [|d [|e2 [|]]]]]]; try congruence.
    destruct (mapM _ cols) as [chips|e1] eqn:Em; cbn [bind]; [discriminate|].
    intros [= <-]. revert Em.
    apply (mapM_only_raises
             (fun column => mapM old_token (split " "%char column))).
    intros column e3. apply mapM_only_raises, old_token_only_raises.
  - intros [= <-]. revert Eu. apply unpack_only_raises, int_only_raises.
Qed.

End OldParser.

(** C4, as the claim words it, does not hold: a column token without any
    colon does not make the parse fail; the text before the first colon is
    then the whole token. *)
Lemma old_token_without_colon_parses :
  ~ (forall header cols column t,
        In column cols -> In t (split " "%char column) ->
        ~ In ":"%char t ->
        exists e, fromString OLD (header :: cols) = Raise e).
Proof.
  intros H.
  destruct (H (lit "1,2,3,4,5") [lit "7"] (lit "7") (lit "7")) as [e E].
  - now left.
  - now left.
  - intros [E|[]]. discriminate E.
  - discriminate E.
Qed.

(** C4, amended: parsing an old-format record that has a header line
    succeeds exactly when the header splits at commas into exactly five
    integers and every space-separated token of every column line has an
    integer before its first colon (the whole token when it has no colon);
    otherwise it fails, always with [ValueError]. A record without lines
    fails with [IndexError]. *)
Theorem fromString_old_fails_exactly (header : str) (cols : list str) :
  ((exists b, fromString OLD (header :: cols) = Ok b)
   <-> old_header_ok header /\ Forall old_column_ok cols)
  /\ (fromString OLD (header :: cols) = Raise ValueError
      <-> ~ (old_header_ok header /\ Forall old_column_ok cols))
  /\ fromString OLD [] = Raise IndexError.
Proof.
  split; [apply fromString_old_defined|]. split; [|reflexivity].
  rewrite <- fromString_old_defined. split.
  - intros E [b E']. congruence.
  - intros Hno. destruct (fromString OLD (header :: cols)) as [b|e] eqn:E.
    + exfalso. apply Hno. now exists b.
    + f_equal. now apply (fromString_old_only_raises header cols).
Qed.

(** ** Old format: serializing and parsing again *)

Section RoundTrip.

Lemma join_absent (c : ascii) (sep : str) (ls : list str) :
  ~ In c sep -> Forall (fun l => ~ In c l) ls -> ~ In c (join sep ls).
Proof.
  intros Hsep. induction 1 as [|l ls Hl _ IH]; [intros []|].
  destruct ls as [|l' ls]; [exact Hl|].
  change (join sep (l :: l' :: ls)) with (l ++ sep ++ join sep (l' :: ls)).
  intros Hin. apply in_app_or in Hin. destruct Hin as [Hin|Hin]; [tauto|].
  apply in_app_or in Hin. tauto.
Qed.

Lemma old_head_fields (b : Board) (m : Z) :
  old_head b m
  = join [","%char]
      [str_of_int (n b); str_of_int (k b); str_of_int (goal b);
       str_of_int m; str_of_int (calc_num_chips b)].
Proof. reflexivity. Qed.

Lemma old_head_split (b : Board) (m : Z) :
  split ","%char (old_head b m)
  = [str_of_int (n b); str_of_int (k b); str_of_int (goal b);
     str_of_int m; str_of_int (calc_num_chips b)].
Proof.
  rewrite old_head_fields. apply split_join; [discriminate|].
  repeat constructor; now apply str_of_int_absent.
Qed.

Lemma old_head_no_newline (b : Board) (m : Z) : ~ In nl (old_head b m).
Proof.
  rewrite old_head_fields. apply join_absent.
  - intros [E|[]]. discriminate E.
  - repeat constructor; now apply str_of_int_absent.
Qed.

Lemma old_token_printed (r : Z) : old_token (str_of_int r ++ lit ":0") = Ok r.
Proof.
  rewrite old_token_before_colon. unfold before_colon.
  change (str_of_int r ++ lit ":0")
    with (str_of_int r ++ ":"%char :: lit "0").
  rewrite split_app by now apply str_of_int_absent.
  apply int_str_of_int.
Qed.

Lemma old_line_parses (column : list Z) :
  column <> [] ->
  mapM old_token (split " "%char (old_line column)) = Ok column.
Proof.
  intros Hne. rewrite old_line_tokens by assumption.
  rewrite <- (map_id column) at 2.
  apply mapM_map. intros r _. apply old_token_printed.
Qed.

Lemma old_body_parses (cols : list (list Z)) :
  Forall (fun c => c <> []) cols ->
  mapM (fun column => mapM old_token (split " "%char column))
       (map old_line cols)
  = Ok cols.
Proof.
  intros H. rewrite <- (map_id cols) at 2.
  apply mapM_map. intros c Hc. rewrite Forall_forall in H.
  now apply old_line_parses, H.
Qed.

Lemma Board_init_sorted (vn vk : Z) (chips : list (list Z)) (g : Z) :
  Board_init vn vk (map sort chips) g = Board_init vn vk chips g.
Proof.
  unfold Board_init. f_equal; rewrite map_map; apply map_ext; intros c.
  - apply sort_sort.
  - apply sort_reverse_sort.
Qed.

Lemma sort_nonempty (chips : list (list Z)) :
  Forall (fun c => c <> []) chips -> Forall (fun c => c <> []) (map sort chips).
Proof.
  intros H. apply Forall_map. eapply Forall_impl; [|exact H].
  intros c Hc E. apply Hc. now apply sort_nil_inv.
Qed.

(** The text of a serialized board with columns splits into its lines and
    parses back to the board. *)
Lemma toString_old_parses (vn vk : Z) (chips : list (list Z)) (g : Z) :
  chips <> [] -> Forall (fun c => c <> []) chips ->
  exists text,
    toString (Board_init vn vk chips g) OLD = Ok text
    /\ fromString OLD (split nl text) = Ok (Board_init vn vk chips g).
Proof.
  intros Hne Hcols.
  destruct (calc_max_row_defined vn vk chips g Hne Hcols) as (m & _ & E & _).
  set (b := Board_init vn vk chips g) in *.
  exists (join [nl] (old_head b m :: old_body b)). split.
  - unfold toString. rewrite E. cbn [bind]. f_equal.
    apply join_lines. unfold old_body, b. cbn [chips_asc Board_init].
    destruct chips; [congruence|discriminate].
  - rewrite split_join.
    + unfold fromString. cbn [index nth_error bind tl].
      rewrite old_head_split.
      assert (unpack int 5
                [str_of_int (n b); str_of_int (k b); str_of_int (goal b);
                 str_of_int m; str_of_int (calc_num_chips b)]
              = Ok [n b; k b; goal b; m; calc_num_chips b]) as ->.
      { apply unpack_Ok. split; [reflexivity|]. simpl.
        now rewrite !int_str_of_int. }
      cbn [bind]. unfold old_body, b. cbn [chips_asc n k goal Board_init].
      change (fun column : list Z =>
                join (lit " ") (map (fun r => str_of_int r ++ lit ":0") column))
        with old_line.
      rewrite old_body_parses by now apply sort_nonempty.
      cbn [bind]. f_equal. apply Board_init_sorted.
    + discriminate.
    + constructor; [apply old_head_no_newline|].
      unfold old_body. apply Forall_map, Forall_forall.
      intros c _. apply old_line_no_newline.
Qed.

Lemma columns_nonempty (f : str -> result Z) (cols : list str)
    (chips : list (list Z)) :
  mapM (fun column => mapM f (split " "%char column)) cols = Ok chips ->
  Forall (fun c => c <> []) chips.
Proof.
  intros Hm. apply mapM_Ok in Hm.
  induction Hm as [|column c cols' chips' Hc _ IH]; constructor; auto.
  intros ->. apply mapM_length in Hc.
  pose proof (split_not_nil " "%char column) as Hs.
  destruct (split " "%char column); [congruence|discriminate Hc].
Qed.

(** The columns of a parsed record: one per body line, none empty. *)
Lemma parsed_chips_shape (datatype : DataType) (lines : list str)
    (chips : list (list Z)) :
  parsed_chips datatype lines = Ok chips ->
  length chips = length (tl lines) /\ Forall (fun c => c <> []) chips.
Proof.
  intros H. split.
  - destruct datatype; simpl in H; now apply mapM_length in H.
  - destruct datatype; simpl in H; eapply columns_nonempty; exact H.
Qed.

End RoundTrip.

Lemma equivalent_refl (b : Board) : equivalent b b.
Proof.
  repeat split. induction (chips_asc b); constructor; auto.
Qed.

(** Old-to-old round trip for a record with at least one column line: the
    board serializes, and the text parses back to the same board, whatever
    the record's [max_row] and [num_chips] fields said. *)
Theorem old_roundtrip_with_columns (header : str) (cols : list str)
    (b : Board) :
  cols <> [] ->
  fromString OLD (header :: cols) = Ok b ->
  exists text b',
    toString b OLD = Ok text
    /\ fromString OLD (split nl text) = Ok b'
    /\ b' = b /\ equivalent b b'.
Proof.
  intros Hne Hparse.
  destruct (fromString_inv _ _ _ Hparse) as (vn & vk & g & chips & Hc & ->).
  destruct (parsed_chips_shape _ _ _ Hc) as [Hlen Hcols].
  assert (chips <> []) as Hchips.
  { intros ->. simpl in Hlen. destruct cols; [congruence|discriminate]. }
  destruct (toString_old_parses vn vk chips g Hchips Hcols) as (text & Et & Ep).
  exists text, (Board_init vn vk chips g).
  repeat split; try assumption. apply equivalent_refl.
Qed.

Lemma old_roundtrip_with_columns_witness :
  exists text b',
    toString (Board_init 2 2 [[3; -1]; [0]] 9) OLD = Ok text
    /\ fromString OLD (split nl text) = Ok b'
    /\ b' = Board_init 2 2 [[3; -1]; [0]] 9
    /\ equivalent (Board_init 2 2 [[3; -1]; [0]] 9) b'.
Proof.
  apply (old_roundtrip_with_columns (lit "2,2,9,77,88")
           [lit "3:0 -1:0"; lit "0:1"]).
  - discriminate.
  - reflexivity.
Defined.

(** C7 fails on the code for a record that has only its header line: the
    record parses, to a board without columns, and serializing that board to
    the old format raises, because [max] is applied to an empty sequence. *)
Theorem old_roundtrip_header_only_raises :
  fromString OLD [lit "1,0,2,0,0"] = Ok (Board_init 1 0 [] 2)
  /\ toString (Board_init 1 0 [] 2) OLD = Raise ValueError.
Proof. split; reflexivity. Qed.

(** ** The record reader *)

Section Reader.

Variable datatype : DataType.
Variable sep : str.

Lemma mapM_app {A B : Type} (f : A -> result B) (l1 l2 : list A) :
  mapM f (l1 ++ l2)
  = (ys <- mapM f l1 ;; zs <- mapM f l2 ;; Ok (ys ++ zs)).
Proof.
  induction l1 as [|x l1 IH]; simpl.
  - destruct (mapM f l2); reflexivity.
  - destruct (f x); cbn [bind]; [|reflexivity].
    rewrite IH. destruct (mapM f l1); cbn [bind]; [|reflexivity].
    destruct (mapM f l2); reflexivity.
Qed.

(** The loop parses the records of [records_from] in order. *)
Lemma read_loop_records (lines buffer : list str) (boards : list Board) :
  read_loop datatype sep lines buffer boards
  = (bs <- mapM (fromString datatype) (records_from sep lines buffer) ;;
     Ok (boards ++ bs)).
Proof.
  revert buffer boards.
  induction lines as [|line rest IH]; intros buffer boards; simpl.
  - destruct (0 <? length buffer)%nat; simpl.
    + destruct (fromString datatype buffer); reflexivity.
    + now rewrite app_nil_r.
  - destruct (negb (str_eqb (strip line) sep)); [apply IH|].
    simpl. destruct (fromString datatype buffer) as [b|]; cbn [bind];
      [|reflexivity].
    rewrite IH.
    destruct (mapM (fromString datatype) (records_from sep rest []));
      cbn [bind]; [|reflexivity].
    now rewrite <- app_assoc.
Qed.

Lemma mapM_raises_in {A B : Type} (f : A -> result B) (l : list A) (x : A)
    (e : exn) :
  In x l -> f x = Raise e -> exists e', mapM f l = Raise e'.
Proof.
  induction l as [|y l IH]; intros Hin Hx; [destruct Hin|].
  simpl. destruct Hin as [->|Hin].
  - rewrite Hx. now exists e.
  - destruct (f y); cbn [bind]; [|eauto].
    destruct (IH Hin Hx) as [e' ->]. now exists e'.
Qed.

Lemma fromString_nil : fromString datatype [] = Raise IndexError.
Proof. destruct datatype; reflexivity. Qed.

(** Two adjacent separator lines leave an empty record between them. *)
Lemma records_from_adjacent (before after buffer : list str) (l1 l2 : str) :
  strip l1 = sep -> strip l2 = sep ->
  In [] (records_from sep (before ++ l1 :: l2 :: after) buffer).
Proof.
  intros H1 H2. revert buffer.
  induction before as [|line before IH]; intros buffer; simpl.
  - rewrite H1, H2, !str_eqb_refl. simpl. right. now left.
  - destruct (negb (str_eqb (strip line) sep)); [apply IH|].
    right. apply IH.
Qed.

End Reader.

(** C10: [fromString] raises [IndexError] on an empty list of lines; when
    the first line of the input is a separator line the reader applies it to
    the empty buffer and the run fails with that error; and an input with
    two adjacent separator lines makes the run fail. *)
Theorem empty_record_raises (datatype : DataType) (sep : str) :
  fromString datatype [] = Raise IndexError
  /\ (forall line rest,
         strip line = sep ->
         read_loop datatype sep (line :: rest) [] [] = Raise IndexError)
  /\ (forall before l1 l2 after,
         strip l1 = sep -> strip l2 = sep ->
         exists e,
           read_loop datatype sep (before ++ l1 :: l2 :: after) [] []
           = Raise e).
Proof.
  split; [apply fromString_nil|]. split.
  - intros line rest H. simpl. rewrite H, str_eqb_refl. simpl.
    now rewrite fromString_nil.
  - intros before l1 l2 after H1 H2. rewrite read_loop_records.
    destruct (mapM_raises_in (fromString datatype)
                (records_from sep (before ++ l1 :: l2 :: after) []) []
                IndexError) as [e E].
    + now apply records_from_adjacent.
    + apply fromString_nil.
    + exists e. now rewrite E.
Qed.

Lemma empty_record_raises_witness :
  read_loop NEW (lit "---") (lit "---" :: [lit "n=1,k=1,n_chips=1"; lit "4"])
            [] []
  = Raise IndexError
  /\ exists e,
       read_loop NEW (lit "---")
         ([lit "n=1,k=1,n_chips=1"; lit "4"] ++ lit "---" :: lit "---" :: [])
         [] []
       = Raise e.
Proof.
  destruct (empty_record_raises NEW (lit "---")) as (_ & Hfirst & Htwo).
  split.
  - apply Hfirst. reflexivity.
  - apply Htwo; reflexivity.
Defined.

(** C5 fails on the code: the reader strips all leading and trailing white
    space of a line, not only its newline. A separator with blanks around it
    still ends a record and the blanks around a content line are dropped,
    where trimming the newline alone keeps all three lines in one record. *)
Theorem reader_strips_white_space :
  records_from (lit "---")
    [lit " 5 " ++ [nl]; lit "  ---  " ++ [nl]; lit "7" ++ [nl]] []
  = [[lit "5"]; [lit "7"]]
  /\ spec_records_from (lit "---")
       [lit " 5 " ++ [nl]; lit "  ---  " ++ [nl]; lit "7" ++ [nl]] []
     = [[lit " 5 "; lit "  ---  "; lit "7"]]
  /\ read_loop NEW (lit "---")
       [lit "n=1,k=1,n_chips=1" ++ [nl]; lit " 5 " ++ [nl];
        lit "  ---  " ++ [nl];
        lit "n=2,k=1,n_chips=1" ++ [nl]; lit "7" ++ [nl]] [] []
     = Ok [Board_init 1 1 [[5]] 0; Board_init 2 1 [[7]] 0].
Proof. repeat split. Qed.

(** ** The script *)

Section Orchestration.

Lemma file_to_boards_records (args : Args) (fs : FS) (text : str) :
  fs (arg_in args) = Some text ->
  file_to_boards args fs
  = mapM (fromString (in_datatype args)) (input_records args text).
Proof.
  intros H. unfold file_to_boards, input_records. rewrite H.
  rewrite read_loop_records.
  destruct (mapM _ _); reflexivity.
Qed.

(** When every record parses, the output file is opened and written. *)
Lemma main_writes (args : Args) (fs : FS) (boards : list Board) :
  file_to_boards args fs = Ok boards ->
  exists r written,
    main args fs = (r, fs_write fs (arg_out args) written).
Proof.
  intros H. unfold main, boards_to_file. rewrite H.
  destruct (write_loop args boards []) as [r written]. now exists r, written.
Qed.

End Orchestration.

(** C1: when some record of the input file fails to parse, the run ends
    with an exception and the file system is left as it was: nothing is
    written, because [main] reads and parses all records before it opens
    the output file. *)
Theorem parse_failure_writes_nothing (args : Args) (fs : FS) (text : str) :
  fs (arg_in args) = Some text ->
  (exists record e,
      In record (input_records args text)
      /\ fromString (in_datatype args) record = Raise e) ->
  exists e, main args fs = (Raise e, fs).
Proof.
  intros Hin (record & e & Hrec & Hfail).
  destruct (mapM_raises_in _ _ _ _ Hrec Hfail) as [e' E].
  exists e'. unfold main.
  now rewrite (file_to_boards_records args fs text Hin), E.
Qed.

Lemma parse_failure_writes_nothing_witness :
  exists e,
    main (mkArgs (lit "in.txt") (lit "out.txt") (lit "new-to-old")
                 (Some (lit "3")) None None)
         (fun p => if str_eqb p (lit "in.txt")
                   then Some (lit "n=1,k=1,n_chips=1" ++ [nl] ++ lit "4"
                              ++ [nl] ++ lit "---" ++ [nl]
                              ++ lit "n=2,k=1,n_chips=1" ++ [nl] ++ lit "x"
                              ++ [nl])
                   else None)
    = (Raise e,
       fun p => if str_eqb p (lit "in.txt")
                then Some (lit "n=1,k=1,n_chips=1" ++ [nl] ++ lit "4"
                           ++ [nl] ++ lit "---" ++ [nl]
                           ++ lit "n=2,k=1,n_chips=1" ++ [nl] ++ lit "x"
                           ++ [nl])
                else None).
Proof.
  eapply (parse_failure_writes_nothing _ _
            (lit "n=1,k=1,n_chips=1" ++ [nl] ++ lit "4" ++ [nl] ++ lit "---"
             ++ [nl] ++ lit "n=2,k=1,n_chips=1" ++ [nl] ++ lit "x" ++ [nl])).
  - reflexivity.
  - exists [lit "n=2,k=1,n_chips=1"; lit "x"], ValueError. split.
    + right. now left.
    + reflexivity.
Defined.

(** ** Further properties of the parser and the serializer *)

Section MoreParser.

Lemma new_field_defined (field : str) :
  (exists z, new_field field = Ok z) <-> new_field_ok field.
Proof.
  unfold new_field, new_field_ok, index, is_int.
  destruct (nth_error (split "="%char field) 1) as [p|]; cbn [bind].
  - split.
    + intros [z E]. exists p. split; [reflexivity|now exists z].
    + intros (q & [= <-] & z & E). now exists z.
  - split; [intros [z E]; discriminate E|].
    intros (q & E & _). discriminate E.
Qed.

Lemma new_field_raises (field : str) (e : exn) :
  new_field field = Raise e -> e = ValueError \/ e = IndexError.
Proof.
  unfold new_field, index.
  destruct (nth_error (split "="%char field) 1) as [p|]; cbn [bind].
  - intros H. left. now apply (int_only_raises p).
  - intros [= <-]. now right.
Qed.


Lemma take_map_raises {A B : Type} (f : A -> result B) (cnt : nat)
    (l : list A) (e : exn) :
  take_map f cnt l = Raise e ->
  e = ValueError \/ exists x, In x l /\ f x = Raise e.
Proof.
  revert l. induction cnt as [|cnt IH]; intros l; simpl; [discriminate|].
  destruct l as [|x l]; [intros [= <-]; now left|].
  destruct (f x) as [y|e1] eqn:Ex; cbn [bind].
  - destruct (take_map f cnt l) as [r|e2] eqn:Et; cbn [bind]; [discriminate|].
    intros [= <-]. destruct (IH _ Et) as [->|(x' & Hin & Hx')];
      [now left|right].
    exists x'. split; [now right|assumption].
  - intros [= <-]. right. exists x. split; [now left|assumption].
Qed.

Lemma take_map_rest {A B : Type} (f : A -> result B) (cnt : nat)
    (l : list A) (r : list B * list A) :
  take_map f cnt l = Ok r -> incl (snd r) l.
Proof.
  revert l r. induction cnt as [|cnt IH]; intros l r; simpl.
  - intros [= <-]. apply incl_refl.
  - destruct l as [|x l]; [discriminate|].
    destruct (f x) as [y|]; cbn [bind]; [|discriminate].
    destruct (take_map f cnt l) as [r'|] eqn:Et; cbn [bind]; [|discriminate].
    intros [= <-]. cbn [snd]. apply incl_tl. now apply IH.
Qed.

Lemma unpack_raises {A B : Type} (f : A -> result B) (cnt : nat)
    (l : list A) (e : exn) :
  unpack f cnt l = Raise e ->
  e = ValueError \/ exists x, In x l /\ f x = Raise e.
Proof.
  unfold unpack.
  destruct (take_map f cnt l) as [r|e1] eqn:Et; cbn [bind].
  - destruct (snd r) as [|x rest] eqn:Er; [discriminate|].
    destruct (f x) as [y|e2] eqn:Ex; cbn [bind].
    + intros [= <-]. now left.
    + intros [= <-]. right. exists x. split; [|assumption].
      apply (take_map_rest f cnt l r Et). rewrite Er. now left.
  - intros [= <-]. now apply take_map_raises in Et.
Qed.

Lemma new_columns_defined (cols : list str) :
  (exists chips,
      mapM (fun column => mapM int (split " "%char column)) cols = Ok chips)
  <-> Forall new_column_ok cols.
Proof.
  rewrite mapM_defined.
  split; intros H; (eapply Forall_impl; [|exact H]); intros column Hc.
  - now apply mapM_defined in Hc.
  - now apply mapM_defined.
Qed.

Lemma new_header_defined (header : str) :
  (exists fields, unpack new_field 3 (split ","%char header) = Ok fields)
  <-> new_header_ok header.
Proof.
  unfold new_header_ok. split.
  - intros [fields E]. apply unpack_Ok in E. destruct E as [Hl Em].
    split; [assumption|].
    assert (Forall (fun x => exists y, new_field x = Ok y)
                   (split ","%char header)) as HF
      by (apply mapM_defined; now exists fields).
    eapply Forall_impl; [|exact HF]. intros f. apply new_field_defined.
  - intros [Hl Hi].
    assert (Forall (fun x => exists y, new_field x = Ok y)
                   (split ","%char header)) as HF
      by (eapply Forall_impl; [|exact Hi]; intros f; apply new_field_defined).
    apply mapM_defined in HF. destruct HF as [fields E].
    exists fields. apply unpack_Ok. now split.
Qed.

Lemma fromString_new_defined (header : str) (cols : list str) :
  (exists b, fromString NEW (header :: cols) = Ok b)
  <-> new_header_ok header /\ Forall new_column_ok cols.
Proof.
  rewrite <- new_header_defined, <- new_columns_defined.
  unfold fromString. cbn [index nth_error bind tl].
  destruct (unpack new_field 3 (split ","%char header)) as [fields|e] eqn:Eu;
    cbn [bind].
  - pose proof Eu as Hlen. apply unpack_Ok in Hlen. destruct Hlen as [Hl Em].
    apply mapM_length in Em. rewrite Hl in Em.
    destruct fields as [|a [|b0 [|c [|]]]]; try discriminate Em.
    destruct (mapM _ cols) as [chips|e1]; cbn [bind].
    + split; [intros _|intros _; eexists; reflexivity].
      split; eexists; reflexivity.
    + split; [intros [b E]; discriminate E|].
      intros [_ [chips E]]. discriminate E.
  - split; [intros [b E]; discriminate E|].
    intros [[fields E] _]. discriminate E.
Qed.

Lemma split_two (c : ascii) (s : str) :
  In c s -> exists a b rest, split c s = a :: b :: rest.
Proof.
  induction s as [|x s IH]; [intros []|]. simpl.
  destruct (Ascii.eqb_spec x c) as [->|Hx].
  - intros _. pose proof (split_not_nil c s).
    destruct (split c s) as [|b rest]; [congruence|]. now exists [], b, rest.
  - intros [E|Hin]; [congruence|].
    destruct (IH Hin) as (a & b & rest & ->). now exists (x :: a), b, rest.
Qed.

End MoreParser.

Lemma fromString_new_raises (header : str) (cols : list str) (e : exn) :
  fromString NEW (header :: cols) = Raise e ->
  e = ValueError
  \/ exists f, In f (split ","%char header) /\ new_field f = Raise e.
Proof.
  unfold fromString. cbn [index nth_error bind tl].
  destruct (unpack new_field 3 (split ","%char header)) as [fields|e1] eqn:Eu;
    cbn [bind].
  - destruct fields as [|a [|b0 [|c [|]]]];
      try (intros [= <-]; now left).
    destruct (mapM _ cols) as [chips|e1] eqn:Em; cbn [bind]; [discriminate|].
    intros [= <-]. left. revert Em.
    apply (mapM_only_raises
             (fun column => mapM int (split " "%char column))).
    intros column e3. apply mapM_only_raises, int_only_raises.
  - intros [= <-]. now apply unpack_raises in Eu.
Qed.

(** Parsing a new-format record that has a header line succeeds exactly
    when the header splits at commas into exactly three fields, each with an
    integer after its first [=], and every space-separated token of every
    column line is an integer. A failure is a [ValueError] or, for a header
    field that lacks an [=], an [IndexError]: when every header field holds
    an [=] it is a [ValueError]. *)
Theorem fromString_new_fails_exactly (header : str) (cols : list str) :
  ((exists b, fromString NEW (header :: cols) = Ok b)
   <-> new_header_ok header /\ Forall new_column_ok cols)
  /\ (forall e, fromString NEW (header :: cols) = Raise e ->
                e = ValueError \/ e = IndexError)
  /\ (forall e, fromString NEW (header :: cols) = Raise e ->
                Forall (fun f => In "="%char f) (split ","%char header) ->
                e = ValueError).
Proof.
  split; [apply fromString_new_defined|].
  pose proof (fromString_new_raises header cols) as Hcases.
  split.
  - intros e He. destruct (Hcases e He) as [->|(f & _ & Hf)]; [now left|].
    now apply new_field_raises in Hf.
  - intros e He Heq. destruct (Hcases e He) as [->|(f & Hin & Hf)];
      [reflexivity|].
    rewrite Forall_forall in Heq. specialize (Heq f Hin).
    destruct (split_two _ _ Heq) as (a & b & rest & Es).
    unfold new_field, index in Hf. rewrite Es in Hf. cbn in Hf.
    now apply (int_only_raises b).
Qed.

(** Every board the parser returns has one column per body line of the
    record and no empty column, whatever [k] the header states; its two
    stored copies hold each parsed column in ascending and in descending
    order. *)
Theorem parsed_board_columns (datatype : DataType) (lines : list str)
    (b : Board) :
  fromString datatype lines = Ok b ->
  exists chips,
    parsed_chips datatype lines = Ok chips
    /\ length chips = length (tl lines)
    /\ Forall (fun c => c <> []) chips
    /\ Forall2 ascending chips (chips_asc b)
    /\ Forall2 descending chips (chips_desc b).
Proof.
  intros Hparse.
  destruct (fromString_inv _ _ _ Hparse) as (vn & vk & g & chips & Hc & ->).
  destruct (parsed_chips_shape _ _ _ Hc) as [Hlen Hne].
  exists chips. repeat split; try assumption; cbn [chips_asc chips_desc Board_init].
  - clear. induction chips; constructor; auto using sort_ascending.
  - clear. induction chips; constructor; auto using sort_reverse_descending.
Qed.

Lemma parsed_board_columns_witness :
  exists chips,
    parsed_chips NEW [lit "n=2,k=7,n_chips=0"; lit "3 -1 5"; lit "0"] = Ok chips
    /\ length chips = length (tl [lit "n=2,k=7,n_chips=0"; lit "3 -1 5"; lit "0"])
    /\ Forall (fun c => c <> []) chips
    /\ Forall2 ascending chips (chips_asc (Board_init 2 7 [[3; -1; 5]; [0]] 0))
    /\ Forall2 descending chips
               (chips_desc (Board_init 2 7 [[3; -1; 5]; [0]] 0)).
Proof.
  apply (parsed_board_columns NEW
           [lit "n=2,k=7,n_chips=0"; lit "3 -1 5"; lit "0"]).
  reflexivity.
Defined.

(** [calc_max_row] fails in exactly two ways: with [ValueError] when the
    board has no column, and with [IndexError] when it has an empty one. *)
Theorem calc_max_row_errors (b : Board) :
  (calc_max_row b = Raise ValueError <-> chips_desc b = [])
  /\ (calc_max_row b = Raise IndexError <-> In [] (chips_desc b))
  /\ ((exists m, calc_max_row b = Ok m)
      <-> chips_desc b <> [] /\ ~ In [] (chips_desc b)).
Proof.
  unfold calc_max_row. generalize (chips_desc b) as cols. intros cols.
  assert (In [] cols ->
          mapM (fun column : list Z => index column 0) cols = Raise IndexError)
    as Hempty.
  { induction cols as [|c cols IH]; [intros []|]. simpl.
    destruct c as [|x c]; [reflexivity|]. intros [E|Hin]; [discriminate E|].
    unfold index at 1. cbn [nth_error bind]. now rewrite IH. }
  assert (~ In [] cols ->
          exists fs, mapM (fun column : list Z => index column 0) cols = Ok fs
                     /\ length fs = length cols) as Hfull.
  { intros Hno. destruct (firsts_nonempty cols) as (fs & E & HF).
    - apply Forall_forall. intros c Hc ->. now apply Hno.
    - exists fs. split; [assumption|]. symmetry.
      eapply Forall2_length; exact HF. }
  assert ({In [] cols} + {~ In [] cols}) as [Hin|Hno]
    by (apply in_dec, list_eq_dec, Z.eq_dec).
  - rewrite (Hempty Hin). cbn [bind]. split; [|split].
    + split; [discriminate|]. intros ->. destruct Hin.
    + split; [intros _; exact Hin|reflexivity].
    + split; [intros [m E]; discriminate E|]. intros [_ Hno]. contradiction.
  - destruct (Hfull Hno) as (fs & -> & Hlen). cbn [bind].
    destruct fs as [|x fs]; destruct cols as [|c cols]; try discriminate Hlen;
      cbn [max]; (split; [|split]).
    + split; reflexivity.
    + split; [discriminate|intros []].
    + split; [intros [m E]; discriminate E|]. intros [H _]. congruence.
    + split; discriminate.
    + split; [discriminate|]. intros H. contradiction.
    + split; [|intros _; eexists; reflexivity].
      intros _. split; [discriminate|assumption].
Qed.


(** The [max_row] and [num_chips] fields of an old-format header must be
    integers but their values are not used: two headers that differ only in
    these two fields parse to the same board. *)
Theorem old_header_derived_fields_ignored (header header' : str)
    (a b c d e d' e' : str) (cols : list str) :
  split ","%char header = [a; b; c; d; e] ->
  split ","%char header' = [a; b; c; d'; e'] ->
  is_int d -> is_int e -> is_int d' -> is_int e' ->
  fromString OLD (header :: cols) = fromString OLD (header' :: cols).
Proof.
  intros Hs Hs' [zd Hd] [ze He] [zd' Hd'] [ze' He'].
  unfold fromString, unpack. cbn [index nth_error bind tl].
  rewrite Hs, Hs'. cbn [take_map].
  destruct (int a) as [za|]; cbn [bind]; [|reflexivity].
  destruct (int b) as [zb|]; cbn [bind]; [|reflexivity].
  destruct (int c) as [zc|]; cbn [bind]; [|reflexivity].
  rewrite Hd, He, Hd', He'. reflexivity.
Qed.

Lemma old_header_derived_fields_ignored_witness :
  fromString OLD [lit "2,2,9,77,88"; lit "3:0 -1:0"]
  = fromString OLD [lit "2,2,9,3,1"; lit "3:0 -1:0"].
Proof.
  apply (old_header_derived_fields_ignored
           (lit "2,2,9,77,88") (lit "2,2,9,3,1")
           (lit "2") (lit "2") (lit "9") (lit "77") (lit "88")
           (lit "3") (lit "1"));
    try reflexivity; eexists; reflexivity.
Defined.

(** The fields of a new-format header are read by position: the text before
    the [=] of a field is not looked at, so renaming the keys does not
    change the parsed board. *)
Theorem new_header_keys_ignored (header header' : str)
    (k1 k2 k3 k1' k2' k3' v1 v2 v3 : str) (cols : list str) :
  split ","%char header
  = [k1 ++ "="%char :: v1; k2 ++ "="%char :: v2; k3 ++ "="%char :: v3] ->
  split ","%char header'
  = [k1' ++ "="%char :: v1; k2' ++ "="%char :: v2; k3' ++ "="%char :: v3] ->
  Forall (fun key => ~ In "="%char key) [k1; k2; k3; k1'; k2'; k3'] ->
  fromString NEW (header :: cols) = fromString NEW (header' :: cols).
Proof.
  intros Hs Hs' Hkeys.
  assert (forall key key' v,
             ~ In "="%char key -> ~ In "="%char key' ->
             new_field (key ++ "="%char :: v)
             = new_field (key' ++ "="%char :: v)) as Hfield.
  { intros key key' v Hk Hk'. unfold new_field.
    now rewrite !split_app by assumption. }
  repeat match goal with
         | H : Forall _ (_ :: _) |- _ => inversion H; clear H; subst
         end.
  unfold fromString, unpack. cbn [index nth_error bind tl].
  rewrite Hs, Hs'. cbn [take_map].
  rewrite (Hfield k1 k1' v1), (Hfield k2 k2' v2), (Hfield k3 k3' v3)
    by assumption.
  reflexivity.
Qed.

Lemma new_header_keys_ignored_witness :
  fromString NEW [lit "n=2,k=1,n_chips=0"; lit "3 -1"]
  = fromString NEW [lit "k=2,goal=1,x=0"; lit "3 -1"].
Proof.
  apply (new_header_keys_ignored
           (lit "n=2,k=1,n_chips=0") (lit "k=2,goal=1,x=0")
           (lit "n") (lit "k") (lit "n_chips")
           (lit "k") (lit "goal") (lit "x")
           (lit "2") (lit "1") (lit "0"));
    try reflexivity.
  repeat constructor; intros H; simpl in H; intuition discriminate.
Defined.

(** ** Reading back what was serialized *)

Section ReadBack.

Lemma absentb_spec (c : ascii) (s : str) : absentb c s = true <-> ~ In c s.
Proof.
  unfold absentb. rewrite negb_true_iff. split.
  - intros H Hin. assert (existsb (Ascii.eqb c) s = true) as E.
    { apply existsb_exists. exists c. split; [assumption|apply Ascii.eqb_refl]. }
    congruence.
  - intros H. destruct (existsb (Ascii.eqb c) s) eqn:E; [|reflexivity].
    apply existsb_exists in E. destruct E as (x & Hin & Hx).
    apply Ascii.eqb_eq in Hx. subst x. contradiction.
Qed.

Lemma absentb_app (c : ascii) (a b : str) :
  absentb c (a ++ b) = absentb c a && absentb c b.
Proof. unfold absentb. now rewrite existsb_app, negb_orb. Qed.

Lemma absentb_cons (c x : ascii) (s : str) :
  absentb c (x :: s) = negb (Ascii.eqb c x) && absentb c s.
Proof. unfold absentb. simpl. now rewrite negb_orb. Qed.

Lemma absentb_str_of_int (c : ascii) (z : Z) :
  numeric_char c = false -> absentb c (str_of_int z) = true.
Proof. intros H. now apply absentb_spec, str_of_int_absent. Qed.

Lemma absentb_join (c : ascii) (sep : str) (ls : list str) :
  absentb c sep = true -> Forall (fun l => absentb c l = true) ls ->
  absentb c (join sep ls) = true.
Proof.
  intros Hsep HF. apply absentb_spec, join_absent.
  - now apply absentb_spec.
  - eapply Forall_impl; [|exact HF]. intros l. apply absentb_spec.
Qed.

Lemma new_line_absent (c : ascii) (column : list Z) :
  numeric_char c = false -> c <> " "%char -> absentb c (new_line column) = true.
Proof.
  intros Hc Hsp. apply absentb_join.
  - unfold absentb. simpl. destruct (Ascii.eqb_spec c " "%char); [congruence|].
    reflexivity.
  - apply Forall_map, Forall_forall. intros r _.
    now apply absentb_str_of_int.
Qed.

Lemma old_line_absent (c : ascii) (column : list Z) :
  numeric_char c = false -> c <> " "%char -> c <> ":"%char ->
  absentb c (old_line column) = true.
Proof.
  intros Hc Hsp Hcolon. apply absentb_join.
  - unfold absentb. simpl. destruct (Ascii.eqb_spec c " "%char); [congruence|].
    reflexivity.
  - apply Forall_map, Forall_forall. intros r _.
    apply absentb_spec. now apply old_token_chars.
Qed.

Lemma new_head_fields (b : Board) :
  new_head b
  = join [","%char]
      [lit "n=" ++ str_of_int (n b); lit "k=" ++ str_of_int (k b);
       lit "n_chips=" ++ str_of_int (calc_num_chips b)].
Proof.
  unfold new_head. cbn [join]. now rewrite <- !app_assoc.
Qed.

Lemma new_head_absent (c : ascii) (b : Board) :
  numeric_char c = false ->
  absentb c (lit "n=k_chips,") = true ->
  absentb c (new_head b) = true.
Proof.
  intros Hc Hlit. unfold new_head.
  rewrite !absentb_app, !absentb_str_of_int by assumption.
  unfold lit in *. cbn [list_ascii_of_string] in *.
  rewrite !absentb_cons in *.
  repeat match goal with
         | H : _ && _ = true |- _ => apply andb_prop in H; destruct H
         end.
  repeat (apply andb_true_intro; split); auto.
Qed.

Lemma new_head_split (b : Board) :
  split ","%char (new_head b)
  = [lit "n=" ++ str_of_int (n b); lit "k=" ++ str_of_int (k b);
     lit "n_chips=" ++ str_of_int (calc_num_chips b)].
Proof.
  rewrite new_head_fields. apply split_join; [discriminate|].
  repeat constructor; apply absentb_spec;
    rewrite absentb_app, absentb_str_of_int by reflexivity; reflexivity.
Qed.

Lemma new_field_printed (key : str) (v : Z) :
  ~ In "="%char key ->
  new_field (key ++ "="%char :: str_of_int v) = Ok v.
Proof.
  intros Hkey. unfold new_field. rewrite split_app by assumption.
  rewrite split_absent by now apply str_of_int_absent.
  cbn [index nth_error bind]. apply int_str_of_int.
Qed.

Lemma new_line_parses (column : list Z) :
  column <> [] ->
  mapM int (split " "%char (new_line column)) = Ok column.
Proof.
  intros Hne. rewrite new_line_tokens by assumption.
  rewrite <- (map_id column) at 2.
  apply mapM_map. intros r _. apply int_str_of_int.
Qed.

Lemma new_body_parses (cols : list (list Z)) :
  Forall (fun c => c <> []) cols ->
  mapM (fun column => mapM int (split " "%char column)) (map new_line cols)
  = Ok cols.
Proof.
  intros H. rewrite <- (map_id cols) at 2.
  apply mapM_map. intros c Hc. rewrite Forall_forall in H.
  now apply new_line_parses, H.
Qed.

Lemma Board_init_sorted_reverse (vn vk : Z) (chips : list (list Z)) (g : Z) :
  Board_init vn vk (map sort_reverse chips) g = Board_init vn vk chips g.
Proof.
  assert (forall c, sort (rev (sort c)) = sort c) as Hrev.
  { intros c. rewrite <- (sort_sort c) at 2.
    apply sort_perm_eq. symmetry. apply Permutation_rev. }
  unfold Board_init. f_equal; rewrite map_map; apply map_ext; intros c;
    rewrite !sort_reverse_rev.
  - apply Hrev.
  - f_equal. apply Hrev.
Qed.

(** The lines of a board in the new format parse to the board, with the
    goal the parser gives every new-format board. *)
Lemma new_lines_parse (vn vk : Z) (chips : list (list Z)) (g : Z) :
  Forall (fun c => c <> []) chips ->
  fromString NEW (new_head (Board_init vn vk chips g)
                  :: new_body (Board_init vn vk chips g))
  = Ok (Board_init vn vk chips 0).
Proof.
  intros Hcols. unfold fromString. cbn [index nth_error bind tl].
  rewrite new_head_split.
  assert (forall a b c,
             unpack new_field 3
               [lit "n=" ++ str_of_int a; lit "k=" ++ str_of_int b;
                lit "n_chips=" ++ str_of_int c]
             = Ok [a; b; c]) as ->.
  { intros a b c. apply unpack_Ok. split; [reflexivity|]. cbn [mapM].
    change (lit "n=" ++ str_of_int a)
      with (lit "n" ++ "="%char :: str_of_int a).
    change (lit "k=" ++ str_of_int b)
      with (lit "k" ++ "="%char :: str_of_int b).
    change (lit "n_chips=" ++ str_of_int c)
      with (lit "n_chips" ++ "="%char :: str_of_int c).
    rewrite !new_field_printed by (simpl; intuition discriminate).
    reflexivity. }
  cbn [bind]. unfold new_body. cbn [chips_desc n k Board_init].
  change (fun column : list Z => join (lit " ") (map str_of_int column))
    with new_line.
  rewrite new_body_parses by now apply sort_reverse_nonempty.
  cbn [bind]. f_equal. apply Board_init_sorted_reverse.
Qed.

(** The lines of a board in the old format parse to the board. *)
Lemma old_lines_parse (vn vk : Z) (chips : list (list Z)) (g m : Z) :
  Forall (fun c => c <> []) chips ->
  fromString OLD (old_head (Board_init vn vk chips g) m
                  :: old_body (Board_init vn vk chips g))
  = Ok (Board_init vn vk chips g).
Proof.
  intros Hcols. unfold fromString. cbn [index nth_error bind tl].
  rewrite old_head_split.
  assert (forall a b c d e,
             unpack int 5 [str_of_int a; str_of_int b; str_of_int c;
                           str_of_int d; str_of_int e]
             = Ok [a; b; c; d; e]) as ->.
  { intros. apply unpack_Ok. split; [reflexivity|]. simpl.
    now rewrite !int_str_of_int. }
  cbn [bind]. unfold old_body. cbn [chips_asc n k goal Board_init].
  change (fun column : list Z =>
            join (lit " ") (map (fun r => str_of_int r ++ lit ":0") column))
    with old_line.
  rewrite old_body_parses by now apply sort_nonempty.
  cbn [bind]. f_equal. apply Board_init_sorted.
Qed.

Lemma new_lines_split (b : Board) :
  new_body b <> [] ->
  split nl (new_head b ++ [nl] ++ join [nl] (new_body b))
  = new_head b :: new_body b.
Proof.
  intros Hne. rewrite join_lines by assumption.
  apply split_join; [discriminate|].
  constructor.
  - apply absentb_spec. now apply new_head_absent.
  - unfold new_body. apply Forall_map, Forall_forall. intros c _.
    apply absentb_spec.
    apply (new_line_absent nl c); [reflexivity|discriminate].
Qed.

End ReadBack.

Section ReadBackText.

Lemma toString_new_parses (vn vk : Z) (chips : list (list Z)) (g : Z) :
  chips <> [] -> Forall (fun c => c <> []) chips ->
  exists text,
    toString (Board_init vn vk chips g) NEW = Ok text
    /\ fromString NEW (split nl text) = Ok (Board_init vn vk chips 0).
Proof.
  intros Hne Hcols. eexists. split; [reflexivity|].
  change (lit (String "010" EmptyString)) with [nl].
  rewrite new_lines_split.
  - now apply new_lines_parse.
  - unfold new_body. cbn [chips_desc Board_init].
    destruct chips; [congruence|discriminate].
Qed.

Lemma parsed_has_columns (datatype : DataType) (header : str)
    (cols : list str) (b : Board) :
  cols <> [] ->
  fromString datatype (header :: cols) = Ok b ->
  exists vn vk chips g,
    b = Board_init vn vk chips g
    /\ chips <> [] /\ Forall (fun c => c <> []) chips.
Proof.
  intros Hne Hparse.
  destruct (fromString_inv _ _ _ Hparse) as (vn & vk & g & chips & Hc & ->).
  destruct (parsed_chips_shape _ _ _ Hc) as [Hlen Hcols].
  exists vn, vk, chips, g. repeat split; try assumption.
  intros ->. simpl in Hlen. destruct cols; [congruence|discriminate].
Qed.

End ReadBackText.

(** New-to-new round trip: a board with at least one column and no empty
    column serializes to a new-format text whose lines parse to the same
    board with goal 0, the goal of every new-format board. *)
Theorem new_roundtrip (vn vk : Z) (chips : list (list Z)) (g : Z) :
  chips <> [] -> Forall (fun c => c <> []) chips ->
  exists text,
    toString (Board_init vn vk chips g) NEW = Ok text
    /\ fromString NEW (split nl text) = Ok (Board_init vn vk chips 0).
Proof. apply toString_new_parses. Qed.

Lemma new_roundtrip_witness :
  exists text,
    toString (Board_init 2 2 [[3; -1]; [0]] 9) NEW = Ok text
    /\ fromString NEW (split nl text) = Ok (Board_init 2 2 [[3; -1]; [0]] 0).
Proof.
  apply (new_roundtrip 2 2 [[3; -1]; [0]] 9).
  - discriminate.
  - repeat constructor; discriminate.
Defined.

(** A board without columns serializes to the new format as its header
    followed by an empty body, and that text does not parse: the empty line
    after the header is read as a column with one empty token. *)
Theorem new_text_without_columns_is_rejected (vn vk g : Z) :
  exists text,
    toString (Board_init vn vk [] g) NEW = Ok text
    /\ split nl text = [new_head (Board_init vn vk [] g); []]
    /\ fromString NEW (split nl text) = Raise ValueError.
Proof.
  eexists. split; [reflexivity|].
  change (lit (String "010" EmptyString)) with [nl].
  assert (split nl (new_head (Board_init vn vk [] g) ++ [nl]
                    ++ join [nl] (new_body (Board_init vn vk [] g)))
          = [new_head (Board_init vn vk [] g); []]) as ->.
  { cbn [new_body chips_desc Board_init map join app].
    rewrite split_app; [reflexivity|].
    apply absentb_spec. now apply new_head_absent. }
  split; [reflexivity|].
  pose proof (new_lines_parse vn vk [] g (Forall_nil _)) as H.
  unfold fromString in *. cbn [index nth_error bind tl] in *.
  destruct (unpack new_field 3 _) as [fields|]; [|discriminate H].
  cbn [bind] in *.
  destruct fields as [|a [|b0 [|c [|]]]]; try discriminate H.
  reflexivity.
Qed.

(** Old to new and back: a parsed old-format record with at least one
    column line serializes to the new format; that text parses to the board
    with goal 0, and giving it the original goal again serializes to the
    same old-format text as the original board. *)
Theorem old_new_old_roundtrip (header : str) (cols : list str) (b : Board) :
  cols <> [] ->
  fromString OLD (header :: cols) = Ok b ->
  exists text b',
    toString b NEW = Ok text
    /\ fromString NEW (split nl text) = Ok b'
    /\ b' = set_goal b 0
    /\ toString (set_goal b' (goal b)) OLD = toString b OLD.
Proof.
  intros Hne Hparse.
  destruct (parsed_has_columns _ _ _ _ Hne Hparse)
    as (vn & vk & chips & g & -> & Hchips & Hcols).
  destruct (toString_new_parses vn vk chips g Hchips Hcols) as (text & Et & Ep).
  exists text, (Board_init vn vk chips 0). repeat split; assumption.
Qed.

Lemma old_new_old_roundtrip_witness :
  exists text b',
    toString (Board_init 2 2 [[3; -1]; [0]] 9) NEW = Ok text
    /\ fromString NEW (split nl text) = Ok b'
    /\ b' = set_goal (Board_init 2 2 [[3; -1]; [0]] 9) 0
    /\ toString (set_goal b' (goal (Board_init 2 2 [[3; -1]; [0]] 9))) OLD
       = toString (Board_init 2 2 [[3; -1]; [0]] 9) OLD.
Proof.
  apply (old_new_old_roundtrip (lit "2,2,9,77,88")
           [lit "3:0 -1:0"; lit "0:1"]).
  - discriminate.
  - reflexivity.
Defined.

(** New to old and back: a parsed new-format record with at least one
    column line serializes to the old format with any goal; that text parses
    to the board with that goal, which serializes to the same new-format
    text as the original board. *)
Theorem new_old_new_roundtrip (header : str) (cols : list str) (b : Board)
    (g : Z) :
  cols <> [] ->
  fromString NEW (header :: cols) = Ok b ->
  exists text b',
    toString (set_goal b g) OLD = Ok text
    /\ fromString OLD (split nl text) = Ok b'
    /\ b' = set_goal b g
    /\ toString b' NEW = toString b NEW.
Proof.
  intros Hne Hparse.
  destruct (parsed_has_columns _ _ _ _ Hne Hparse)
    as (vn & vk & chips & g0 & -> & Hchips & Hcols).
  destruct (toString_old_parses vn vk chips g Hchips Hcols) as (text & Et & Ep).
  exists text, (Board_init vn vk chips g). repeat split; assumption.
Qed.

Lemma new_old_new_roundtrip_witness :
  exists text b',
    toString (set_goal (Board_init 2 2 [[3; -1]; [0]] 0) 9) OLD = Ok text
    /\ fromString OLD (split nl text) = Ok b'
    /\ b' = set_goal (Board_init 2 2 [[3; -1]; [0]] 0) 9
    /\ toString b' NEW = toString (Board_init 2 2 [[3; -1]; [0]] 0) NEW.
Proof.
  apply (new_old_new_roundtrip (lit "n=2,k=2,n_chips=5")
           [lit "3 -1"; lit "0"]).
  - discriminate.
  - reflexivity.
Defined.

(** ** Further properties of the record reader *)

Section MoreReader.

Variable sep : str.

Lemma last_app_cons {A : Type} (a : list A) (x : A) (r : list A) (d : A) :
  last (a ++ x :: r) d = last (x :: r) d.
Proof.
  induction a as [|y a IH]; [reflexivity|].
  cbn [app]. rewrite <- IH. cbn [last].
  destruct (a ++ x :: r) eqn:E; [|reflexivity].
  destruct a; discriminate E.
Qed.

Lemma last_in {A : Type} (l : list A) (d : A) : l <> [] -> In (last l d) l.
Proof.
  induction l as [|x l IH]; [congruence|]. intros _.
  destruct l as [|y l]; [now left|]. right. apply IH. discriminate.
Qed.

Lemma records_from_join (lines buffer : list str) :
  ~ In sep buffer ->
  join_records sep (records_from sep lines buffer)
  = buffer ++ map strip lines
    ++ (if str_eqb (last (buffer ++ map strip lines) sep) sep
        then [] else [sep]).
Proof.
  unfold join_records. revert buffer.
  induction lines as [|line rest IH]; intros buffer Hbuf; cbn [records_from map].
  - rewrite app_nil_r. destruct buffer as [|x buffer]; cbn [length Nat.ltb Nat.leb].
    + simpl. now rewrite str_eqb_refl.
    + change (0 <? S (length buffer))%nat with true. cbn [map concat].
      rewrite app_nil_r.
      destruct (str_eqb (last (x :: buffer) sep) sep) eqn:E; [|reflexivity].
      apply str_eqb_eq in E. exfalso. apply Hbuf. rewrite <- E.
      apply last_in. discriminate.
  - destruct (str_eqb (strip line) sep) eqn:E; cbn [negb].
    + apply str_eqb_eq in E. cbn [map concat].
      rewrite (IH [] (fun H => H)). cbn [app].
      rewrite <- app_assoc. cbn [app]. rewrite E.
      rewrite last_app_cons. f_equal. f_equal. f_equal.
      destruct (map strip rest); reflexivity.
    + rewrite IH.
      * now rewrite <- !app_assoc.
      * intros Hin. apply in_app_or in Hin. destruct Hin as [Hin|[Hin|[]]];
          [contradiction|].
        rewrite Hin, str_eqb_refl in E. discriminate E.
Qed.

Lemma records_from_no_separator (lines buffer : list str) :
  ~ In sep buffer ->
  Forall (fun record => ~ In sep record) (records_from sep lines buffer).
Proof.
  revert buffer.
  induction lines as [|line rest IH]; intros buffer Hbuf; cbn [records_from].
  - destruct (0 <? length buffer)%nat; repeat constructor; assumption.
  - destruct (str_eqb (strip line) sep) eqn:E; cbn [negb].
    + constructor; [assumption|]. apply IH. intros [].
    + apply IH. intros Hin. apply in_app_or in Hin.
      destruct Hin as [Hin|[Hin|[]]]; [contradiction|].
      rewrite Hin, str_eqb_refl in E. discriminate E.
Qed.

Lemma records_from_trailing (lines buffer : list str) (l s : str) :
  strip l <> sep -> strip s = sep ->
  records_from sep (lines ++ [l; s]) buffer
  = records_from sep (lines ++ [l]) buffer.
Proof.
  intros Hl Hs. revert buffer.
  induction lines as [|line rest IH]; intros buffer; cbn [app records_from].
  - assert (str_eqb (strip l) sep = false) as ->.
    { destruct (str_eqb (strip l) sep) eqn:E; [|reflexivity].
      apply str_eqb_eq in E. contradiction. }
    rewrite Hs, str_eqb_refl. cbn [negb].
    rewrite length_app, Nat.add_comm. reflexivity.
  - destruct (negb (str_eqb (strip line) sep)); [apply IH|].
    f_equal. apply IH.
Qed.

Lemma records_from_blank_tail (lines buffer : list str) (l s : str) :
  strip s = sep -> strip l = [] -> sep <> [] ->
  In [[]] (records_from sep (lines ++ [s; l]) buffer).
Proof.
  intros Hs Hl Hsep. revert buffer.
  induction lines as [|line rest IH]; intros buffer; cbn [app records_from].
  - rewrite Hs, Hl, str_eqb_refl. cbn [negb].
    assert (str_eqb [] sep = false) as ->.
    { destruct (str_eqb [] sep) eqn:E; [|reflexivity].
      apply str_eqb_eq in E. congruence. }
    cbn. right. now left.
  - destruct (negb (str_eqb (strip line) sep)); [apply IH|].
    right. apply IH.
Qed.

End MoreReader.

(** The reader drops, repeats or reorders no line: its records, each
    followed by a separator line, put one after the other are the stripped
    lines of the input, with one separator line added when the input does
    not end with one; and no record holds a separator line. *)
Theorem reader_keeps_every_line (sep : str) (lines : list str) :
  join_records sep (records_from sep lines [])
  = map strip lines
    ++ (if str_eqb (last (map strip lines) sep) sep then [] else [sep])
  /\ Forall (fun record => ~ In sep record) (records_from sep lines []).
Proof.
  split.
  - apply (records_from_join sep lines []). intros [].
  - apply records_from_no_separator. intros [].
Qed.

(** The separator line after the last record is optional: with or without
    it the same boards are read. *)
Theorem trailing_separator_is_optional (datatype : DataType) (sep : str)
    (lines : list str) (l s : str) :
  strip l <> sep -> strip s = sep ->
  read_loop datatype sep (lines ++ [l; s]) [] []
  = read_loop datatype sep (lines ++ [l]) [] [].
Proof.
  intros Hl Hs. rewrite !read_loop_records.
  now rewrite (records_from_trailing sep lines [] l s Hl Hs).
Qed.

Lemma trailing_separator_is_optional_witness :
  read_loop NEW (lit "---")
    ([lit "n=1,k=1,n_chips=1"] ++ [lit "4"; lit "---"]) [] []
  = read_loop NEW (lit "---") ([lit "n=1,k=1,n_chips=1"] ++ [lit "4"]) [] [].
Proof.
  apply (trailing_separator_is_optional NEW (lit "---")
           [lit "n=1,k=1,n_chips=1"] (lit "4") (lit "---")).
  - discriminate.
  - reflexivity.
Defined.

(** A record whose first line is blank does not parse, so a blank line
    after the last separator line makes the run fail: the blank line is
    taken for the header of one more record. *)
Theorem trailing_blank_line_raises (datatype : DataType) (sep : str)
    (lines : list str) (s l : str) :
  strip s = sep -> strip l = [] -> sep <> [] ->
  exists e, read_loop datatype sep (lines ++ [s; l]) [] [] = Raise e.
Proof.
  intros Hs Hl Hsep. rewrite read_loop_records.
  destruct (mapM_raises_in (fromString datatype)
              (records_from sep (lines ++ [s; l]) []) [[]]
              (match datatype with OLD => ValueError | NEW => IndexError end))
    as [e E].
  - now apply records_from_blank_tail.
  - destruct datatype; reflexivity.
  - exists e. now rewrite E.
Qed.

Lemma trailing_blank_line_raises_witness :
  exists e,
    read_loop NEW (lit "---")
      ([lit "n=1,k=1,n_chips=1" ++ [nl]; lit "4" ++ [nl]]
       ++ [lit "---" ++ [nl]; [nl]]) [] []
    = Raise e.
Proof.
  apply (trailing_blank_line_raises NEW (lit "---")
           [lit "n=1,k=1,n_chips=1" ++ [nl]; lit "4" ++ [nl]]
           (lit "---" ++ [nl]) [nl]).
  - reflexivity.
  - reflexivity.
  - discriminate.
Defined.

(** ** Further properties of the writer and of the script *)

Section Writer.

Variable args : Args.

Lemma write_loop_step (board : Board) (rest : list Board) (written : str) :
  write_loop args (board :: rest) written
  = match emit args board with
    | Raise e => (Raise e, written)
    | Ok text =>
        write_loop args rest (written ++ chunk (out_separator args) text)
    end.
Proof.
  cbn [write_loop]. unfold emit, chunk.
  destruct (out_datatype args); cbn [bind].
  - destruct (goal_of args) as [g|e]; cbn [bind]; [|reflexivity].
    destruct (toString (set_goal board g) OLD); reflexivity.
  - destruct (toString board NEW); reflexivity.
Qed.

Lemma write_loop_all (boards : list Board) (texts : list str)
    (written : str) :
  mapM (emit args) boards = Ok texts ->
  write_loop args boards written
  = (Ok tt, written ++ concat (map (chunk (out_separator args)) texts)).
Proof.
  revert texts written.
  induction boards as [|b boards IH]; intros texts written.
  - intros [= <-]. simpl. now rewrite app_nil_r.
  - rewrite write_loop_step. cbn [mapM].
    destruct (emit args b) as [text|]; cbn [bind]; [|discriminate].
    destruct (mapM (emit args) boards) as [ts|]; cbn [bind]; [|discriminate].
    intros [= <-]. rewrite (IH ts) by reflexivity.
    cbn [map concat]. now rewrite app_assoc.
Qed.

Lemma write_loop_stops (before after : list Board) (board : Board)
    (texts : list str) (e : exn) (written : str) :
  mapM (emit args) before = Ok texts ->
  emit args board = Raise e ->
  write_loop args (before ++ board :: after) written
  = (Raise e, written ++ concat (map (chunk (out_separator args)) texts)).
Proof.
  revert texts written.
  induction before as [|b before IH]; intros texts written.
  - intros [= <-] He. cbn [app]. rewrite write_loop_step, He.
    simpl. now rewrite app_nil_r.
  - cbn [app mapM]. rewrite write_loop_step.
    destruct (emit args b) as [text|]; cbn [bind]; [|discriminate].
    destruct (mapM (emit args) before) as [ts|]; cbn [bind]; [|discriminate].
    intros [= <-] He. rewrite (IH ts) by auto.
    cbn [map concat]. now rewrite app_assoc.
Qed.

End Writer.

(** When every record parses and every board serializes, the run succeeds
    and the output file holds, for each board in input order, its text, a
    newline, the output separator and a newline; the last board too is
    followed by the separator. *)
Theorem main_writes_every_board (args : Args) (fs : FS)
    (boards : list Board) (texts : list str) :
  file_to_boards args fs = Ok boards ->
  mapM (emit args) boards = Ok texts ->
  main args fs
  = (Ok tt,
     fs_write fs (arg_out args)
       (concat (map (fun text => text ++ [nl] ++ out_separator args ++ [nl])
                    texts))).
Proof.
  intros Hread Hemit. unfold main, boards_to_file. rewrite Hread.
  now rewrite (write_loop_all args boards texts [] Hemit).
Qed.

Lemma main_writes_every_board_witness :
  main (mkArgs (lit "in") (lit "out") (lit "old-to-new") None None
               (Some (lit "==")))
       (fun p => if str_eqb p (lit "in")
                 then Some (lit "1,1,5,0,0" ++ [nl] ++ lit "2:0 7:0" ++ [nl])
                 else None)
  = (Ok tt,
     fs_write (fun p => if str_eqb p (lit "in")
                        then Some (lit "1,1,5,0,0" ++ [nl] ++ lit "2:0 7:0"
                                   ++ [nl])
                        else None)
       (lit "out")
       (concat (map (fun text => text ++ [nl] ++ lit "==" ++ [nl])
                    [lit "n=1,k=1,n_chips=2" ++ [nl] ++ lit "7 2"]))).
Proof.
  apply (main_writes_every_board
           (mkArgs (lit "in") (lit "out") (lit "old-to-new") None None
                   (Some (lit "==")))
           _ [Board_init 1 1 [[2; 7]] 5]
           [lit "n=1,k=1,n_chips=2" ++ [nl] ++ lit "7 2"]);
    reflexivity.
Defined.

(** Writing is not all or nothing: when a board fails to serialize, the
    run ends with its exception and the output file holds the text of the
    boards before it, each followed by the separator. *)
Theorem main_keeps_partial_output (args : Args) (fs : FS)
    (before after : list Board) (board : Board) (texts : list str)
    (e : exn) :
  file_to_boards args fs = Ok (before ++ board :: after) ->
  mapM (emit args) before = Ok texts ->
  emit args board = Raise e ->
  main args fs
  = (Raise e,
     fs_write fs (arg_out args)
       (concat (map (fun text => text ++ [nl] ++ out_separator args ++ [nl])
                    texts))).
Proof.
  intros Hread Hbefore Hboard. unfold main, boards_to_file. rewrite Hread.
  now rewrite (write_loop_stops args before after board texts e []
                 Hbefore Hboard).
Qed.

Lemma main_keeps_partial_output_witness :
  main (mkArgs (lit "in") (lit "out") (lit "new-to-old") (Some (lit "5"))
               None None)
       (fun p => if str_eqb p (lit "in")
                 then Some (lit "n=1,k=1,n_chips=1" ++ [nl] ++ lit "4" ++ [nl]
                            ++ lit "---" ++ [nl]
                            ++ lit "n=1,k=0,n_chips=0" ++ [nl])
                 else None)
  = (Raise ValueError,
     fs_write (fun p => if str_eqb p (lit "in")
                        then Some (lit "n=1,k=1,n_chips=1" ++ [nl] ++ lit "4"
                                   ++ [nl] ++ lit "---" ++ [nl]
                                   ++ lit "n=1,k=0,n_chips=0" ++ [nl])
                        else None)
       (lit "out")
       (concat (map (fun text => text ++ [nl] ++ lit "---" ++ [nl])
                    [lit "1,1,5,4,1" ++ [nl] ++ lit "4:0"]))).
Proof.
  apply (main_keeps_partial_output
           (mkArgs (lit "in") (lit "out") (lit "new-to-old") (Some (lit "5"))
                   None None)
           _ [Board_init 1 1 [[4]] 0] [] (Board_init 1 0 [] 0)
           [lit "1,1,5,4,1" ++ [nl] ++ lit "4:0"] ValueError);
    reflexivity.
Defined.

(** The goal is converted inside the writing loop: with a goal that is not
    an integer a new-to-old run with at least one board ends with the
    exception of [int] after the output file has been emptied, and a run
    without boards succeeds without looking at the goal. *)
Theorem bad_goal_empties_output (args : Args) (fs : FS)
    (boards : list Board) (e : exn) :
  out_datatype args = OLD ->
  goal_of args = Raise e ->
  file_to_boards args fs = Ok boards ->
  main args fs
  = (match boards with [] => Ok tt | _ :: _ => Raise e end,
     fs_write fs (arg_out args) []).
Proof.
  intros Hout Hgoal Hread. unfold main, boards_to_file. rewrite Hread.
  destruct boards as [|b boards]; cbn [write_loop]; [reflexivity|].
  now rewrite Hout, Hgoal.
Qed.

Lemma bad_goal_empties_output_witness :
  main (mkArgs (lit "in") (lit "out") (lit "new-to-old")
               (Some (lit "five")) None None)
       (fun p => if str_eqb p (lit "in")
                 then Some (lit "n=1,k=1,n_chips=1" ++ [nl] ++ lit "4" ++ [nl])
                 else None)
  = (Raise ValueError,
     fs_write (fun p => if str_eqb p (lit "in")
                        then Some (lit "n=1,k=1,n_chips=1" ++ [nl] ++ lit "4"
                                   ++ [nl])
                        else None)
              (lit "out") []).
Proof.
  apply (bad_goal_empties_output
           (mkArgs (lit "in") (lit "out") (lit "new-to-old")
                   (Some (lit "five")) None None)
           _ [Board_init 1 1 [[4]] 0] ValueError);
    reflexivity.
Defined.

(** A run changes no file other than the output file. *)
Theorem main_touches_only_output (args : Args) (fs : FS) (path : str) :
  path <> arg_out args ->
  snd (main args fs) path = fs path.
Proof.
  intros Hpath. unfold main.
  destruct (file_to_boards args fs) as [boards|e]; [|reflexivity].
  unfold boards_to_file.
  destruct (write_loop args boards []) as [r written]. cbn [snd].
  unfold fs_write.
  destruct (str_eqb path (arg_out args)) eqn:E; [|reflexivity].
  apply str_eqb_eq in E. contradiction.
Qed.

Lemma main_touches_only_output_witness :
  snd (main (mkArgs (lit "in") (lit "out") (lit "old-to-new") None None None)
            (fun p => if str_eqb p (lit "in")
                      then Some (lit "1,1,5,0,0" ++ [nl] ++ lit "2:0" ++ [nl])
                      else None))
      (lit "in")
  = Some (lit "1,1,5,0,0" ++ [nl] ++ lit "2:0" ++ [nl]).
Proof.
  apply (main_touches_only_output
           (mkArgs (lit "in") (lit "out") (lit "old-to-new") None None None)
           (fun p => if str_eqb p (lit "in")
                     then Some (lit "1,1,5,0,0" ++ [nl] ++ lit "2:0" ++ [nl])
                     else None)
           (lit "in")).
  discriminate.
Defined.

(** An old-to-new run never looks at the goal argument: any goal, absent or
    not an integer, gives the same result and the same files. *)
Theorem old_to_new_ignores_goal (args : Args) (fs : FS) (g : option str) :
  out_datatype args = NEW ->
  main (with_goal args g) fs = main args fs.
Proof.
  intros Hout. unfold main.
  change (file_to_boards (with_goal args g) fs) with (file_to_boards args fs).
  destruct (file_to_boards args fs) as [boards|e]; [|reflexivity].
  unfold boards_to_file. change (arg_out (with_goal args g)) with (arg_out args).
  assert (forall written,
             write_loop (with_goal args g) boards written
             = write_loop args boards written) as ->; [|reflexivity].
  induction boards as [|b boards IH]; intros written; [reflexivity|].
  cbn [write_loop].
  change (out_datatype (with_goal args g)) with (out_datatype args).
  change (out_separator (with_goal args g)) with (out_separator args).
  rewrite Hout. destruct (toString b NEW); [apply IH|reflexivity].
Qed.

Lemma old_to_new_ignores_goal_witness :
  main (with_goal (mkArgs (lit "in") (lit "out") (lit "old-to-new") None
                          None None)
                  (Some (lit "five")))
       (fun p => if str_eqb p (lit "in")
                 then Some (lit "1,1,5,0,0" ++ [nl] ++ lit "2:0" ++ [nl])
                 else None)
  = main (mkArgs (lit "in") (lit "out") (lit "old-to-new") None None None)
         (fun p => if str_eqb p (lit "in")
                   then Some (lit "1,1,5,0,0" ++ [nl] ++ lit "2:0" ++ [nl])
                   else None).
Proof.
  apply (old_to_new_ignores_goal
           (mkArgs (lit "in") (lit "out") (lit "old-to-new") None None None)).
  reflexivity.
Defined.

Section Exceptions.





End Exceptions.

(** The checks of [parse_args] accept the arguments exactly when the
    direction is one of the two literals and, for new-to-old, a non-empty
    goal is given; accepted arguments are returned unchanged, and a wrong
    direction is reported before a missing goal. *)
Theorem parse_args_checks_accept (args : Args) :
  (parse_args_checks args = inr args
   <-> (arg_direction args = lit "old-to-new"
        \/ (arg_direction args = lit "new-to-old"
            /\ exists c g, arg_goal args = Some (c :: g))))
  /\ (parse_args_checks args = inl BadDirection
      <-> arg_direction args <> lit "old-to-new"
          /\ arg_direction args <> lit "new-to-old")
  /\ (forall args', parse_args_checks args = inr args' -> args' = args).
Proof.
  unfold parse_args_checks, goal_missing. cbn [existsb].
  destruct (str_eqb (arg_direction args) (lit "old-to-new")) eqn:E1;
    destruct (str_eqb (arg_direction args) (lit "new-to-old")) eqn:E2;
    cbn [orb negb andb];
    try (apply str_eqb_eq in E1);
    try (apply str_eqb_eq in E2);
    try (assert (arg_direction args <> lit "old-to-new") as N1
          by (intros H; rewrite H in E1; discriminate E1));
    try (assert (arg_direction args <> lit "new-to-old") as N2
          by (intros H; rewrite H in E2; discriminate E2)).
  - rewrite E1 in E2. discriminate E2.
  - split; [|split].
    + split; [intros _; now left|reflexivity].
    + split; [discriminate|]. intros [H _]. contradiction.
    + now intros args' [= <-].
  - destruct (arg_goal args) as [[|c g]|]; (split; [|split]).
    + split; [discriminate|].
      intros [H|[_ (c & g & H)]]; [contradiction|discriminate H].
    + split; [discriminate|]. intros [_ H]. contradiction.
    + intros args' H. discriminate H.
    + split; [|reflexivity]. intros _. right.
      split; [assumption|]. now exists c, g.
    + split; [discriminate|]. intros [_ H]. contradiction.
    + now intros args' [= <-].
    + split; [discriminate|].
      intros [H|[_ (c & g & H)]]; [contradiction|discriminate H].
    + split; [discriminate|]. intros [_ H]. contradiction.
    + intros args' H. discriminate H.
  - split; [|split].
    + split; [discriminate|]. intros [H|[H _]]; contradiction.
    + split; [intros _; now split|reflexivity].
    + intros args' H. discriminate H.
Qed.



(** ** Reading a written file *)

Section Lines.

Lemma translate_newlines_plain (s : str) :
  ~ In cr s -> translate_newlines s = s.
Proof.
  induction s as [|c s IH]; [reflexivity|]. intros H. cbn [translate_newlines].
  destruct (Ascii.eqb_spec c cr) as [->|_].
  - exfalso. apply H. now left.
  - f_equal. apply IH. intros Hin. apply H. now right.
Qed.

Lemma file_lines_line (line rest : str) :
  ~ In nl line -> file_lines (line ++ nl :: rest) = addnl line :: file_lines rest.
Proof.
  induction line as [|c line IH]; intros H.
  - cbn [app file_lines]. now rewrite Ascii.eqb_refl.
  - cbn [app file_lines].
    destruct (Ascii.eqb_spec c nl) as [->|_]; [exfalso; apply H; now left|].
    rewrite IH by (intros Hin; apply H; now right). reflexivity.
Qed.

Lemma file_lines_concat (lines : list str) :
  Forall (fun l => ~ In nl l) lines ->
  file_lines (concat (map addnl lines)) = map addnl lines.
Proof.
  induction 1 as [|l lines Hl _ IH]; [reflexivity|].
  cbn [map concat]. unfold addnl at 1. rewrite <- app_assoc. cbn [app].
  rewrite file_lines_line by assumption. now rewrite IH.
Qed.

Lemma isspace_nl : isspace nl = true.
Proof. reflexivity. Qed.

Lemma lstrip_addnl (s : str) :
  lstrip (s ++ [nl]) = match lstrip s with [] => [] | _ :: _ => lstrip s ++ [nl] end.
Proof.
  induction s as [|c s IH]; [reflexivity|]. cbn [app lstrip].
  destruct (isspace c); [exact IH|reflexivity].
Qed.

(** Stripping removes the newline of a line with the rest of the white
    space around it. *)
Lemma strip_addnl (s : str) : strip (addnl s) = strip s.
Proof.
  unfold strip, addnl. rewrite lstrip_addnl.
  destruct (lstrip s) as [|c t] eqn:E; [reflexivity|].
  unfold rstrip. rewrite rev_app_distr. cbn [rev app lstrip].
  now rewrite isspace_nl.
Qed.

Lemma strip_tight (s : str) : tight s = true -> strip s = s.
Proof.
  unfold tight, strip, rstrip. intros H. apply andb_prop in H.
  destruct H as [Hs He].
  assert (forall t, starts_tight t = true -> lstrip t = t) as Hl.
  { intros [|c t]; [discriminate|]. cbn [starts_tight lstrip].
    now destruct (isspace c). }
  rewrite (Hl s Hs), (Hl (rev s) He). apply rev_involutive.
Qed.

Lemma starts_tight_app (a b : str) :
  starts_tight a = true -> starts_tight (a ++ b) = true.
Proof. destruct a; [discriminate|exact (fun H => H)]. Qed.

Lemma ends_tight_app (a b : str) :
  starts_tight (rev b) = true -> starts_tight (rev (a ++ b)) = true.
Proof. intros H. rewrite rev_app_distr. now apply starts_tight_app. Qed.

Lemma tight_app (a b : str) :
  starts_tight a = true -> starts_tight (rev b) = true -> tight (a ++ b) = true.
Proof.
  intros Ha Hb. unfold tight.
  now rewrite starts_tight_app, ends_tight_app.
Qed.

Lemma numeric_not_space (c : ascii) : numeric_char c = true -> isspace c = false.
Proof.
  destruct c as [[] [] [] [] [] [] [] []]; intros H; try discriminate H;
    reflexivity.
Qed.

Lemma str_of_int_starts (z : Z) : starts_tight (str_of_int z) = true.
Proof.
  pose proof (str_of_int_numeric z) as HF.
  pose proof (str_of_int_not_nil z) as Hne.
  destruct (str_of_int z) as [|c s]; [congruence|].
  inversion HF; subst. cbn [starts_tight].
  now rewrite numeric_not_space.
Qed.

Lemma str_of_int_ends (z : Z) : starts_tight (rev (str_of_int z)) = true.
Proof.
  pose proof (str_of_int_numeric z) as HF.
  pose proof (str_of_int_not_nil z) as Hne.
  apply Forall_rev in HF.
  destruct (rev (str_of_int z)) as [|c s] eqn:E.
  - apply (f_equal (@rev ascii)) in E. rewrite rev_involutive in E.
    contradiction.
  - inversion HF; subst. cbn [starts_tight]. now rewrite numeric_not_space.
Qed.

Lemma tight_join (sep : str) (ls : list str) :
  ls <> [] -> Forall (fun l => tight l = true) ls ->
  tight (join sep ls) = true.
Proof.
  intros Hne HF. induction HF as [|l ls Hl _ IH]; [congruence|].
  destruct ls as [|l' ls]; [exact Hl|].
  change (join sep (l :: l' :: ls)) with (l ++ sep ++ join sep (l' :: ls)).
  unfold tight in Hl. apply andb_prop in Hl. destruct Hl as [Hs _].
  specialize (IH ltac:(discriminate)). unfold tight in IH.
  apply andb_prop in IH. destruct IH as [_ He].
  apply tight_app; [assumption|]. now apply ends_tight_app.
Qed.

Lemma str_of_int_has_digit (z : Z) : has_digit (str_of_int z) = true.
Proof.
  assert (forall d, d <> Decimal.Nil -> has_digit (uint_chars d) = true) as Hd.
  { intros d Hne. pose proof (uint_chars_digits d) as HF.
    destruct (uint_chars d) as [|c s] eqn:E.
    - destruct d; simpl in E; congruence.
    - inversion HF; subst. unfold has_digit. cbn [existsb].
      apply orb_true_intro. now left. }
  unfold str_of_int. destruct z as [|p|p]; cbn [Z.to_int].
  - reflexivity.
  - apply Hd, to_uint_not_nil.
  - unfold has_digit. cbn [existsb]. apply orb_true_intro. right.
    apply Hd, to_uint_not_nil.
Qed.

Lemma has_digit_app (a b : str) : has_digit (a ++ b) = has_digit a || has_digit b.
Proof. apply existsb_app. Qed.

Lemma has_digit_not_plain (sep line : str) :
  Forall (fun c => is_digit c = false) sep -> has_digit line = true ->
  line <> sep.
Proof.
  intros Hsep Hline ->. unfold has_digit in Hline.
  apply existsb_exists in Hline. destruct Hline as (c & Hin & Hc).
  rewrite Forall_forall in Hsep. specialize (Hsep c Hin). congruence.
Qed.

Lemma has_digit_join (sep : str) (ls : list str) :
  ls <> [] -> Forall (fun l => has_digit l = true) ls ->
  has_digit (join sep ls) = true.
Proof.
  intros Hne HF. destruct HF as [|l ls Hl _]; [congruence|].
  destruct ls as [|l' ls]; [exact Hl|].
  change (join sep (l :: l' :: ls)) with (l ++ sep ++ join sep (l' :: ls)).
  now rewrite has_digit_app, Hl.
Qed.

End Lines.

Section WrittenLines.

Variable sep : str.
Hypothesis Hsep : plain_separator sep.

Lemma content_line_intro (line : str) :
  tight line = true -> has_digit line = true ->
  absentb nl line = true -> absentb cr line = true ->
  content_line sep line.
Proof.
  destruct Hsep as (_ & _ & _ & Hdigits).
  intros Ht Hd Hnl Hcr. repeat split.
  - now apply strip_tight.
  - now apply (has_digit_not_plain sep line).
  - now apply absentb_spec.
  - now apply absentb_spec.
Qed.

Lemma old_head_absent (c : ascii) (b : Board) (m : Z) :
  numeric_char c = false -> c <> ","%char -> absentb c (old_head b m) = true.
Proof.
  intros Hc Hcomma. rewrite old_head_fields. apply absentb_join.
  - unfold absentb. simpl. destruct (Ascii.eqb_spec c ","%char); [congruence|].
    reflexivity.
  - repeat constructor; now apply absentb_str_of_int.
Qed.

Lemma old_head_content (b : Board) (m : Z) : content_line sep (old_head b m).
Proof.
  apply content_line_intro.
  - unfold old_head. apply tight_app; [apply str_of_int_starts|].
    repeat apply ends_tight_app. apply str_of_int_ends.
  - unfold old_head. now rewrite has_digit_app, str_of_int_has_digit.
  - apply old_head_absent; [reflexivity|discriminate].
  - apply old_head_absent; [reflexivity|discriminate].
Qed.

Lemma new_head_content (b : Board) : content_line sep (new_head b).
Proof.
  apply content_line_intro.
  - unfold new_head. apply tight_app; [reflexivity|].
    repeat apply ends_tight_app. apply str_of_int_ends.
  - unfold new_head.
    now rewrite !has_digit_app, str_of_int_has_digit, orb_true_r.
  - now apply new_head_absent.
  - now apply new_head_absent.
Qed.

Lemma old_line_content (column : list Z) :
  column <> [] -> content_line sep (old_line column).
Proof.
  intros Hne. apply content_line_intro.
  - apply tight_join; [destruct column; [congruence|discriminate]|].
    apply Forall_map, Forall_forall. intros r _.
    apply tight_app; [apply str_of_int_starts|reflexivity].
  - apply has_digit_join; [destruct column; [congruence|discriminate]|].
    apply Forall_map, Forall_forall. intros r _.
    now rewrite has_digit_app, str_of_int_has_digit.
  - apply old_line_absent; [reflexivity|discriminate|discriminate].
  - apply old_line_absent; [reflexivity|discriminate|discriminate].
Qed.

Lemma new_line_content (column : list Z) :
  column <> [] -> content_line sep (new_line column).
Proof.
  intros Hne. apply content_line_intro.
  - apply tight_join; [destruct column; [congruence|discriminate]|].
    apply Forall_map, Forall_forall. intros r _. unfold tight.
    now rewrite str_of_int_starts, str_of_int_ends.
  - apply has_digit_join; [destruct column; [congruence|discriminate]|].
    apply Forall_map, Forall_forall. intros r _.
    apply str_of_int_has_digit.
  - apply new_line_absent; [reflexivity|discriminate].
  - apply new_line_absent; [reflexivity|discriminate].
Qed.

(** The lines of a board with columns, in either format, are content
    lines and parse to the board; in the new format the goal becomes 0. *)
Lemma board_lines_read_back (datatype : DataType) (vn vk : Z)
    (chips : list (list Z)) (g : Z) :
  chips <> [] -> Forall (fun c => c <> []) chips ->
  exists ls,
    toString (Board_init vn vk chips g) datatype = Ok (join [nl] ls)
    /\ ls <> []
    /\ Forall (content_line sep) ls
    /\ fromString datatype ls
       = Ok (Board_init vn vk chips
               (match datatype with OLD => g | NEW => 0 end)).
Proof.
  intros Hne Hcols. destruct datatype.
  - destruct (calc_max_row_defined vn vk chips g Hne Hcols) as (m & _ & E & _).
    set (b := Board_init vn vk chips g) in *.
    assert (old_body b <> []) as Hbody.
    { unfold old_body, b. cbn [chips_asc Board_init].
      destruct chips; [congruence|discriminate]. }
    exists (old_head b m :: old_body b). repeat split.
    + unfold toString. rewrite E. cbn [bind]. f_equal.
      now apply join_lines.
    + discriminate.
    + constructor; [apply old_head_content|].
      unfold old_body, b. cbn [chips_asc Board_init].
      apply Forall_map, Forall_map, Forall_forall. intros c Hc.
      apply (old_line_content (sort c)). intros E'.
      apply sort_nil_inv in E'. subst c.
      rewrite Forall_forall in Hcols. now apply (Hcols []).
    + now apply old_lines_parse.
  - set (b := Board_init vn vk chips g) in *.
    assert (new_body b <> []) as Hbody.
    { unfold new_body, b. cbn [chips_desc Board_init].
      destruct chips; [congruence|discriminate]. }
    exists (new_head b :: new_body b). repeat split.
    + unfold toString. f_equal. now apply join_lines.
    + discriminate.
    + constructor; [apply new_head_content|].
      unfold new_body, b. cbn [chips_desc Board_init].
      apply Forall_map, Forall_map, Forall_forall. intros c Hc.
      apply (new_line_content (sort_reverse c)). intros E'.
      apply sort_reverse_nil_inv in E'. subst c.
      rewrite Forall_forall in Hcols. now apply (Hcols []).
    + now apply new_lines_parse.
Qed.

Lemma join_addnl (ls : list str) :
  ls <> [] -> join [nl] ls ++ [nl] = concat (map addnl ls).
Proof.
  induction ls as [|l ls IH]; [congruence|]. intros _.
  destruct ls as [|l' ls].
  - simpl. unfold addnl. now rewrite app_nil_r.
  - change (join [nl] (l :: l' :: ls)) with (l ++ [nl] ++ join [nl] (l' :: ls)).
    change (concat (map addnl (l :: l' :: ls)))
      with (addnl l ++ concat (map addnl (l' :: ls))).
    rewrite <- IH by discriminate.
    unfold addnl. now rewrite <- !app_assoc.
Qed.

Lemma chunk_lines (ls : list str) :
  ls <> [] -> chunk sep (join [nl] ls) = concat (map addnl (ls ++ [sep])).
Proof.
  intros Hne. unfold chunk. rewrite map_app, concat_app.
  rewrite <- join_addnl by assumption. cbn [map concat].
  unfold addnl. now rewrite app_nil_r, <- !app_assoc.
Qed.

Lemma records_from_chunk (ls rest buffer : list str) :
  Forall (content_line sep) ls ->
  records_from sep (map addnl (ls ++ [sep]) ++ rest) buffer
  = (buffer ++ ls) :: records_from sep rest [].
Proof.
  destruct Hsep as (Hstrip & _).
  intros HF. revert buffer.
  induction HF as [|l ls Hl _ IH]; intros buffer;
    cbn [app map records_from].
  - rewrite strip_addnl, Hstrip, str_eqb_refl. cbn [negb].
    now rewrite app_nil_r.
  - destruct Hl as (Hl & Hneq & _). rewrite strip_addnl, Hl.
    destruct (str_eqb l sep) eqn:E; [apply str_eqb_eq in E; contradiction|].
    cbn [negb]. rewrite IH. now rewrite <- app_assoc.
Qed.

Lemma records_from_chunks (lss : list (list str)) :
  Forall (fun ls => ls <> [] /\ Forall (content_line sep) ls) lss ->
  records_from sep
    (map addnl (concat (map (fun ls => ls ++ [sep]) lss))) []
  = lss.
Proof.
  induction 1 as [|ls lss [_ Hls] _ IH]; [reflexivity|].
  cbn [map concat]. rewrite map_app.
  rewrite records_from_chunk by assumption. now rewrite IH.
Qed.

(** The text written for boards whose lines are content lines is read
    back, line for line, as the records of these boards. *)
Lemma chunks_read_back (datatype : DataType) (lss : list (list str)) :
  Forall (fun ls => ls <> [] /\ Forall (content_line sep) ls) lss ->
  read_loop datatype sep
    (file_lines
       (translate_newlines
          (concat (map (fun ls => chunk sep (join [nl] ls)) lss)))) [] []
  = mapM (fromString datatype) lss.
Proof.
  intros HF.
  assert (concat (map (fun ls => chunk sep (join [nl] ls)) lss)
          = concat (map addnl (concat (map (fun ls => ls ++ [sep]) lss))))
    as ->.
  { induction HF as [|ls lss [Hne _] _ IH]; [reflexivity|].
    cbn [map concat]. rewrite IH, chunk_lines by assumption.
    now rewrite (map_app addnl (ls ++ [sep])), concat_app. }
  destruct Hsep as (_ & Hnl & Hcr & _).
  assert (Forall (fun l => ~ In nl l /\ ~ In cr l)
                 (concat (map (fun ls => ls ++ [sep]) lss))) as Hlines.
  { induction HF as [|ls lss [_ Hls] _ IH]; [constructor|].
    cbn [map concat]. apply Forall_app. split; [|exact IH].
    apply Forall_app. split; [|repeat constructor; assumption].
    eapply Forall_impl; [|exact Hls]. intros l (_ & _ & H1 & H2). now split. }
  rewrite translate_newlines_plain.
  - rewrite file_lines_concat
      by (eapply Forall_impl; [|exact Hlines]; intros l [H _]; exact H).
    rewrite read_loop_records, records_from_chunks by assumption.
    destruct (mapM (fromString datatype) lss); reflexivity.
  - induction Hlines as [|l ls [_ Hl] _ IH]; [intros []|].
    cbn [map concat]. intros Hin. apply in_app_or in Hin.
    destruct Hin as [Hin|Hin]; [|contradiction].
    unfold addnl in Hin. apply in_app_or in Hin.
    destruct Hin as [Hin|[Hin|[]]]; [contradiction|discriminate Hin].
Qed.

End WrittenLines.

Section WrittenFile.

Lemma read_boards_built (datatype : DataType) (records : list (list str))
    (boards : list Board) :
  mapM (fromString datatype) records = Ok boards ->
  Forall (fun b => exists vn vk chips g,
                     b = Board_init vn vk chips g
                     /\ Forall (fun c => c <> []) chips) boards.
Proof.
  intros H. apply mapM_Ok in H.
  induction H as [|record b records boards Hb _ IH]; constructor; auto.
  destruct (fromString_inv _ _ _ Hb) as (vn & vk & g & chips & Hc & ->).
  exists vn, vk, chips, g. split; [reflexivity|].
  now apply (parsed_chips_shape _ _ _ Hc).
Qed.

Lemma file_to_boards_built (args : Args) (fs : FS) (boards : list Board) :
  file_to_boards args fs = Ok boards ->
  Forall (fun b => exists vn vk chips g,
                     b = Board_init vn vk chips g
                     /\ Forall (fun c => c <> []) chips) boards.
Proof.
  unfold file_to_boards. destruct (fs (arg_in args)) as [text|]; [|discriminate].
  rewrite read_loop_records.
  destruct (mapM _ _) as [bs|] eqn:E; cbn [bind]; [|discriminate].
  intros [= <-]. now apply read_boards_built in E.
Qed.

(** What the writing loop emits for parsed boards with columns, and how it
    reads back. *)
Lemma emitted_lines (args : Args) (g : Z) (boards : list Board) :
  plain_separator (out_separator args) ->
  match out_datatype args with
  | OLD => goal_of args = Ok g
  | NEW => g = 0
  end ->
  Forall (fun b => exists vn vk chips g0,
                     b = Board_init vn vk chips g0
                     /\ Forall (fun c => c <> []) chips) boards ->
  Forall (fun b => chips_asc b <> []) boards ->
  exists lss,
    mapM (emit args) boards = Ok (map (join [nl]) lss)
    /\ Forall (fun ls => ls <> []
                         /\ Forall (content_line (out_separator args)) ls) lss
    /\ mapM (fromString (out_datatype args)) lss
       = Ok (map (fun b => set_goal b g) boards).
Proof.
  intros Hsep Hgoal Hbuilt Hcols.
  induction Hbuilt as [|b boards (vn & vk & chips & g0 & -> & Hne) _ IH].
  - exists []. repeat split; constructor.
  - inversion Hcols as [|? ? Hb Hrest]; subst.
    destruct (IH Hrest) as (lss & Hemit & Hlines & Hread).
    assert (chips <> []) as Hchips.
    { intros ->. now apply Hb. }
    destruct (board_lines_read_back (out_separator args) Hsep
                (out_datatype args) vn vk chips g Hchips Hne)
      as (ls & Hs & Hls & Hcontent & Hparse).
    exists (ls :: lss). split; [|split].
    + cbn [mapM map]. rewrite Hemit.
      assert (emit args (Board_init vn vk chips g0) = Ok (join [nl] ls)) as ->;
        [|reflexivity].
      unfold emit. destruct (out_datatype args).
      * rewrite Hgoal. cbn [bind]. exact Hs.
      * exact Hs.
    + constructor; [now split|assumption].
    + cbn [mapM map]. rewrite Hparse, Hread. cbn [bind].
      destruct (out_datatype args); [reflexivity|]. now subst g.
Qed.

Lemma fs_write_read (fs : FS) (path text : str) :
  fs_write fs path text path = Some text.
Proof. unfold fs_write. now rewrite str_eqb_refl. Qed.

End WrittenFile.

(** The converter reads its own output: when the input is read as boards
    that all have a column, the output separator is unchanged by stripping,
    spans one line and holds no digit, and (for the old format) the goal is
    an integer, the run succeeds and reading the output file in the output
    format with the output separator gives the same boards, with the goal
    set to the goal of the arguments (old format) or to 0 (new format). *)
Theorem written_file_reads_back (args args' : Args) (fs : FS)
    (boards : list Board) (g : Z) :
  plain_separator (out_separator args) ->
  file_to_boards args fs = Ok boards ->
  Forall (fun b => chips_asc b <> []) boards ->
  match out_datatype args with
  | OLD => goal_of args = Ok g
  | NEW => g = 0
  end ->
  arg_in args' = arg_out args ->
  in_separator args' = out_separator args ->
  in_datatype args' = out_datatype args ->
  fst (main args fs) = Ok tt
  /\ file_to_boards args' (snd (main args fs))
     = Ok (map (fun b => set_goal b g) boards).
Proof.
  intros Hsep Hread Hcols Hgoal Hin Hisep Hdt.
  destruct (emitted_lines args g boards Hsep Hgoal
              (file_to_boards_built args fs boards Hread) Hcols)
    as (lss & Hemit & Hlines & Hback).
  unfold main, boards_to_file. rewrite Hread.
  rewrite (write_loop_all args boards _ [] Hemit). cbn [fst snd app].
  split; [reflexivity|].
  unfold file_to_boards. rewrite Hin, fs_write_read, Hisep, Hdt.
  rewrite map_map.
  rewrite (chunks_read_back (out_separator args) Hsep (out_datatype args) lss
             Hlines).
  exact Hback.
Qed.

Lemma written_file_reads_back_witness :
  fst (main (mkArgs (lit "in") (lit "out") (lit "new-to-old")
                    (Some (lit "5")) None None)
            (fun p => if str_eqb p (lit "in")
                      then Some (lit "n=1,k=2,n_chips=0" ++ [nl]
                                 ++ lit "4 -1" ++ [nl] ++ lit "7" ++ [nl])
                      else None))
  = Ok tt
  /\ file_to_boards
       (mkArgs (lit "out") (lit "again") (lit "old-to-new") None None None)
       (snd (main (mkArgs (lit "in") (lit "out") (lit "new-to-old")
                          (Some (lit "5")) None None)
                  (fun p => if str_eqb p (lit "in")
                            then Some (lit "n=1,k=2,n_chips=0" ++ [nl]
                                       ++ lit "4 -1" ++ [nl] ++ lit "7" ++ [nl])
                            else None)))
     = Ok (map (fun b => set_goal b 5) [Board_init 1 2 [[4; -1]; [7]] 0]).
Proof.
  apply (written_file_reads_back
           (mkArgs (lit "in") (lit "out") (lit "new-to-old")
                   (Some (lit "5")) None None)
           (mkArgs (lit "out") (lit "again") (lit "old-to-new") None None None)
           _ [Board_init 1 2 [[4; -1]; [7]] 0] 5).
  - repeat split.
    + intros H. simpl in H. intuition discriminate.
    + intros H. simpl in H. intuition discriminate.
    + repeat constructor.
  - reflexivity.
  - repeat constructor. discriminate.
  - reflexivity.
  - reflexivity.
  - reflexivity.
  - reflexivity.
Defined.

(** An empty input file gives an empty output file: the run succeeds
    without parsing anything and, whatever the direction and the goal, the
    output file is created empty. *)
Theorem empty_input_gives_empty_output (args : Args) (fs : FS) :
  fs (arg_in args) = Some [] ->
  main args fs = (Ok tt, fs_write fs (arg_out args) []).
Proof.
  intros H. unfold main, file_to_boards. now rewrite H.
Qed.

Lemma empty_input_gives_empty_output_witness :
  main (mkArgs (lit "in") (lit "out") (lit "new-to-old") None None None)
       (fun p => if str_eqb p (lit "in") then Some [] else None)
  = (Ok tt,
     fs_write (fun p => if str_eqb p (lit "in") then Some [] else None)
              (lit "out") []).
Proof.
  apply (empty_input_gives_empty_output
           (mkArgs (lit "in") (lit "out") (lit "new-to-old") None None None)).
  reflexivity.
Defined.
